(** * Licensing gateway of [commercial_quantum_system.py]

    A shallow embedding of [QuantumCommercialSystem]: the tier table, the
    derivation of license and API keys, license issuance, the request
    dispatcher and the revenue aggregation, together with the properties
    the specification states about them. *)

From Stdlib Require Import ZArith List String Ascii Floats Uint63 Lia.
From stdpp Require Import base decidable option list strings pretty gmap
  fin_maps.

Set Warnings "-inexact-float".
Local Open Scope Z_scope.

(** ** Python [str] and [bytes]

    A [str] is represented by its UTF-8 text, so [str.encode()] lists the
    characters' codes and an f-string is a concatenation. *)

Definition encode (s : string) : list Z :=
  map (fun c => Z.of_N (N_of_ascii c)) (list_ascii_of_string s).

(** ** [hashlib.sha256]

    The digest of FIPS 180-4 over 32-bit words, a word being a [Z] reduced
    modulo [2^32] after every addition and left shift. *)

Module hashlib.

Definition wrap (x : Z) : Z := x mod 2 ^ 32.
Definition add32 (x y : Z) : Z := wrap (x + y).
Definition rotr (n x : Z) : Z :=
  Z.lor (Z.shiftr x n) (wrap (Z.shiftl x (32 - n))).
Definition not32 (x : Z) : Z := Z.lxor x 0xffffffff.

Definition ch (x y z : Z) : Z := Z.lxor (Z.land x y) (Z.land (not32 x) z).
Definition maj (x y z : Z) : Z :=
  Z.lxor (Z.lxor (Z.land x y) (Z.land x z)) (Z.land y z).
Definition bsig0 (x : Z) : Z :=
  Z.lxor (Z.lxor (rotr 2 x) (rotr 13 x)) (rotr 22 x).
Definition bsig1 (x : Z) : Z :=
  Z.lxor (Z.lxor (rotr 6 x) (rotr 11 x)) (rotr 25 x).
Definition ssig0 (x : Z) : Z :=
  Z.lxor (Z.lxor (rotr 7 x) (rotr 18 x)) (Z.shiftr x 3).
Definition ssig1 (x : Z) : Z :=
  Z.lxor (Z.lxor (rotr 17 x) (rotr 19 x)) (Z.shiftr x 10).

(** The first 64 primes, and the first 32 bits of the fractional part of
    the [k]-th root of an integer, found bit by bit from the top. *)
Definition is_prime (n : Z) : bool :=
  forallb (fun d => negb (n mod d =? 0))
          (filter (fun d => d * d <=? n) (map Z.of_nat (seq 2 16))).

Definition primes : list Z := filter is_prime (map Z.of_nat (seq 2 310)).

Definition root (k n : Z) : Z :=
  fold_left (fun r i => let r' := r + 2 ^ Z.of_nat i in
                        if r' ^ k <=? n then r' else r)
            (rev (seq 0 48)) 0.

Definition fraction_bits (k p : Z) : Z := wrap (root k (p * 2 ^ (32 * k))).

(** The round constants come from the cube roots of the 64 primes, the
    initial hash value from the square roots of the first eight. *)
Definition round_constants : list Z := map (fraction_bits 3) primes.

(** The eight working words [a] to [h]. *)
Record regs := Regs {
  ra : Z; rb : Z; rc : Z; rd : Z; re : Z; rf : Z; rg : Z; rh : Z }.

Definition initial_hash : regs :=
  match map (fraction_bits 2) (firstn 8 primes) with
  | [a; b; c; d; e; f; g; h] => Regs a b c d e f g h
  | _ => Regs 0 0 0 0 0 0 0 0
  end.

(** Padding: the byte [0x80], zero bytes up to 56 modulo 64, and the bit
    length of the message on eight bytes, most significant first. *)
Definition be_bytes (count : nat) (x : Z) : list Z :=
  map (fun i => Z.shiftr x (8 * Z.of_nat (count - 1 - i)) mod 256)
      (seq 0 count).

Definition pad (msg : list Z) : list Z :=
  let len := Z.of_nat (length msg) in
  let zeros := Z.to_nat ((55 - len) mod 64) in
  msg ++ 0x80 :: repeat 0 zeros ++ be_bytes 8 (8 * len).

Fixpoint be_words (bs : list Z) : list Z :=
  match bs with
  | b0 :: b1 :: b2 :: b3 :: rest =>
      (Z.shiftl b0 24 + Z.shiftl b1 16 + Z.shiftl b2 8 + b3) :: be_words rest
  | _ => []
  end.

Fixpoint blocks (fuel : nat) (ws : list Z) : list (list Z) :=
  match fuel, ws with
  | S fuel', _ :: _ => firstn 16 ws :: blocks fuel' (skipn 16 ws)
  | _, _ => []
  end.

(** Message schedule: the sixteen words of the block, then 48 more, each
    from the words 2, 7, 15 and 16 places before it. [rev_w] holds the
    schedule most recent word first. *)
Fixpoint extend (count : nat) (rev_w : list Z) : list Z :=
  match count with
  | O => rev_w
  | S count' =>
      let at_ i := nth i rev_w 0 in
      let w := add32 (add32 (ssig1 (at_ 1%nat)) (at_ 6%nat))
                     (add32 (ssig0 (at_ 14%nat)) (at_ 15%nat)) in
      extend count' (w :: rev_w)
  end.

Definition schedule (block : list Z) : list Z :=
  rev (extend 48 (rev block)).

Definition round (r : regs) (kw : Z * Z) : regs :=
  let t1 := add32 (add32 (add32 (rh r) (bsig1 (re r)))
                         (add32 (ch (re r) (rf r) (rg r)) (fst kw)))
                  (snd kw) in
  let t2 := add32 (bsig0 (ra r)) (maj (ra r) (rb r) (rc r)) in
  Regs (add32 t1 t2) (ra r) (rb r) (rc r) (add32 (rd r) t1) (re r) (rf r) (rg r).

Definition compress (h : regs) (block : list Z) : regs :=
  let r := fold_left round (combine round_constants (schedule block)) h in
  Regs (add32 (ra h) (ra r)) (add32 (rb h) (rb r))
       (add32 (rc h) (rc r)) (add32 (rd h) (rd r))
       (add32 (re h) (re r)) (add32 (rf h) (rf r))
       (add32 (rg h) (rg r)) (add32 (rh h) (rh r)).

Definition sha256 (msg : list Z) : regs :=
  let ws := be_words (pad msg) in
  fold_left compress (blocks (length ws) ws) initial_hash.

(** [hexdigest]: every word as eight lowercase hexadecimal digits. *)
Definition hex_digit (d : Z) : ascii :=
  match d with
  | 0 => "0" | 1 => "1" | 2 => "2" | 3 => "3" | 4 => "4" | 5 => "5"
  | 6 => "6" | 7 => "7" | 8 => "8" | 9 => "9" | 10 => "a" | 11 => "b"
  | 12 => "c" | 13 => "d" | 14 => "e" | _ => "f"
  end%char.

Definition nibble (x : Z) (i : Z) : ascii :=
  hex_digit (Z.shiftr x (4 * i) mod 16).

Definition hex_word (x : Z) (tail : string) : string :=
  String (nibble x 7) (String (nibble x 6) (String (nibble x 5)
 (String (nibble x 4) (String (nibble x 3) (String (nibble x 2)
 (String (nibble x 1) (String (nibble x 0) tail))))))).

Definition hexdigest (r : regs) : string :=
  hex_word (ra r) (hex_word (rb r) (hex_word (rc r) (hex_word (rd r)
 (hex_word (re r) (hex_word (rf r) (hex_word (rg r) (hex_word (rh r)
  EmptyString))))))).

End hashlib.

(** ** License tiers and licenses *)

Inductive LicenseTier := BASIC | PROFESSIONAL | ENTERPRISE | UNLIMITED.

#[global] Instance LicenseTier_eq_dec : EqDecision LicenseTier.
Proof. solve_decision. Defined.

(** Position of a tier in the enumeration. *)
Definition rank (t : LicenseTier) : nat :=
  match t with
  | BASIC => 0 | PROFESSIONAL => 1 | ENTERPRISE => 2 | UNLIMITED => 3
  end%nat.

Definition of_rank (n : nat) : option LicenseTier :=
  match n with
  | 0 => Some BASIC | 1 => Some PROFESSIONAL | 2 => Some ENTERPRISE
  | 3 => Some UNLIMITED | _ => None
  end%nat.

#[global] Program Instance LicenseTier_countable : Countable LicenseTier :=
  inj_countable rank of_rank _.
Next Obligation. by intros []. Qed.

(** [tier.value] *)
Definition value (t : LicenseTier) : string :=
  match t with
  | BASIC => "QUANTUM_BASIC"
  | PROFESSIONAL => "QUANTUM_PRO"
  | ENTERPRISE => "QUANTUM_ENTERPRISE"
  | UNLIMITED => "QUANTUM_UNLIMITED"
  end.

(** The value under ['api_calls_per_second']: an [int], or [float('inf')]. *)
Inductive rate := PerSecond (n : Z) | Infinity.

(** One entry of [self.features], with its four keys. *)
Record TierEntry := {
  qubits : Z;
  api_calls_per_second : rate;
  entry_features : gset string;
  price : Z }.

(** Instants are microseconds on the wall clock; [timedelta(days=n)] is a
    number of microseconds. *)
Definition timedelta (days : Z) : Z := days * 86400 * 1000000.

Record CommercialLicense := {
  tier : LicenseTier;
  company_name : string;
  license_key : string;
  access_level : float;
  features : gset string;
  api_key : string;
  quantum_allocation : Z;
  monthly_fee : Z;
  start_date : Z;
  expiration_date : Z }.

(** ** The running program

    [QuantumCommercialSystem] carries the attributes set by [__init__]; the
    tier table [self.features] is the field [catalog]. *)

Record QuantumCommercialSystem := {
  license_db : gmap string CommercialLicense;
  revenue : Z;
  catalog : gmap LicenseTier TierEntry }.

(** One counting window of the rate limiter, per license key. *)
Record RateWindow := { window_start : Z; count : Z }.

(** What a call can read or change: the names bound in the module, the wall
    clock and the random source (each a sequence of which a prefix has been
    consumed), the system object, the rate limiter's windows, and the log
    of the methods called so far, oldest first. *)
Record World := {
  globals : list string;
  clock : nat -> Z;
  clock_reads : nat;
  entropy : nat -> string;
  entropy_draws : nat;
  self : QuantumCommercialSystem;
  windows : gmap string RateWindow;
  calls : list string }.

Inductive exn :=
| NameError (name : string)
| KeyError
| ValueError (msg : string)
| InvalidRequestError
| InvalidCredentialError
| ExpiredLicenseError.

Inductive result (A : Type) :=
| Ok (a : A)
| Raise (e : exn).
Arguments Ok {A} a.
Arguments Raise {A} e.

(** A call returns or raises, and leaves a world behind either way. *)
Definition M (A : Type) : Type := World -> result A * World.

Definition ret {A} (a : A) : M A := fun w => (Ok a, w).
Definition raise {A} (e : exn) : M A := fun w => (Raise e, w).
Definition bind {A B} (m : M A) (k : A -> M B) : M B :=
  fun w => match m w with
           | (Ok a, w') => k a w'
           | (Raise e, w') => (Raise e, w')
           end.

Notation "'do' x <- m ; k" := (bind m (fun x => k))
  (at level 10, x name, m at level 100, k at level 200).
Notation "m ;; k" := (bind m (fun _ => k))
  (at level 100, k at level 200, right associativity).

Definition tick (w : World) : World :=
  {| globals := globals w; clock := clock w; clock_reads := S (clock_reads w);
     entropy := entropy w; entropy_draws := entropy_draws w;
     self := self w; windows := windows w; calls := calls w |}.

Definition draw (w : World) : World :=
  {| globals := globals w; clock := clock w; clock_reads := clock_reads w;
     entropy := entropy w; entropy_draws := S (entropy_draws w);
     self := self w; windows := windows w; calls := calls w |}.

Definition with_self (s : QuantumCommercialSystem) (w : World) : World :=
  {| globals := globals w; clock := clock w; clock_reads := clock_reads w;
     entropy := entropy w; entropy_draws := entropy_draws w;
     self := s; windows := windows w; calls := calls w |}.

Definition with_windows (ws : gmap string RateWindow) (w : World) : World :=
  {| globals := globals w; clock := clock w; clock_reads := clock_reads w;
     entropy := entropy w; entropy_draws := entropy_draws w;
     self := self w; windows := ws; calls := calls w |}.

Definition logged (name : string) (w : World) : World :=
  {| globals := globals w; clock := clock w; clock_reads := clock_reads w;
     entropy := entropy w; entropy_draws := entropy_draws w;
     self := self w; windows := windows w; calls := calls w ++ [name] |}.

(** Evaluating a global name. *)
Definition global (name : string) : M unit :=
  fun w => if existsb (String.eqb name) (globals w)
           then (Ok tt, w) else (Raise (NameError name), w).

(** [self.name(...)]: the call is logged, then the body runs. *)
Definition method {A} (name : string) (body : M A) : M A :=
  fun w => body (logged name w).

(** [datetime.now()] *)
Definition datetime_now : M Z :=
  fun w => (Ok (clock w (clock_reads w)), tick w).

(** [uuid.uuid4().hex] *)
Definition uuid4_hex : M string :=
  fun w => (Ok (entropy w (entropy_draws w)), draw w).

(** [self.features[tier]] *)
Definition features_of (t : LicenseTier) : M TierEntry :=
  fun w => match catalog (self w) !! t with
           | Some e => (Ok e, w)
           | None => (Raise KeyError, w)
           end.

(** [self.license_db[key] = license] *)
Definition store (key : string) (l : CommercialLicense) : M unit :=
  fun w => (Ok tt,
            with_self {| license_db := <[key := l]> (license_db (self w));
                         revenue := revenue (self w);
                         catalog := catalog (self w) |} w).

(** The names bound at module level: the imports of lines 1 to 13, the
    classes and [main]. None of the names used below is a builtin. *)
Definition module_globals : list string :=
  [ "QuantumCircuit"; "QuantumRegister"; "ClassicalRegister";
    "QiskitRuntimeService"; "np"; "Dict"; "List"; "Optional"; "Set";
    "asyncio"; "dataclass"; "field"; "Enum"; "auto"; "logging"; "sys";
    "datetime"; "hashlib"; "uuid"; "time";
    "LicenseTier"; "CommercialLicense"; "QuantumCommercialSystem";
    "QuotingSystem"; "main" ]%string.

(** ** [_initialize_commercial_system] *)

Definition basic_features : gset string :=
  {[ "quantum_processing"; "basic_optimization"; "pattern_recognition" ]}%string.

Definition professional_features : gset string :=
  {[ "quantum_processing"; "advanced_optimization"; "pattern_recognition";
     "quantum_ml"; "parallel_processing" ]}%string.

Definition enterprise_features : gset string :=
  {[ "quantum_processing"; "advanced_optimization"; "pattern_recognition";
     "quantum_ml"; "parallel_processing"; "custom_quantum_circuits";
     "priority_support"; "dedicated_infrastructure" ]}%string.

Definition unlimited_features : gset string :=
  {[ "quantum_processing"; "advanced_optimization"; "pattern_recognition";
     "quantum_ml"; "parallel_processing"; "custom_quantum_circuits";
     "priority_support"; "dedicated_infrastructure"; "unlimited_scaling";
     "direct_quantum_access"; "custom_development" ]}%string.

Definition tier_table : gmap LicenseTier TierEntry :=
  <[ BASIC := {| qubits := 128; api_calls_per_second := PerSecond 10;
                 entry_features := basic_features; price := 10000 |} ]>
 (<[ PROFESSIONAL := {| qubits := 512; api_calls_per_second := PerSecond 50;
                 entry_features := professional_features; price := 50000 |} ]>
 (<[ ENTERPRISE := {| qubits := 1024; api_calls_per_second := PerSecond 250;
                 entry_features := enterprise_features; price := 250000 |} ]>
 (<[ UNLIMITED := {| qubits := 2048; api_calls_per_second := Infinity;
                 entry_features := unlimited_features; price := 1000000 |} ]>
  ∅))).

Definition _initialize_commercial_system (s : QuantumCommercialSystem)
    : QuantumCommercialSystem :=
  {| license_db := license_db s; revenue := revenue s; catalog := tier_table |}.

Definition __init__ : QuantumCommercialSystem :=
  _initialize_commercial_system
    {| license_db := ∅; revenue := 0; catalog := ∅ |}.

(** ** Key derivation *)

(** [f"{company_name}-{tier.value}-{nonce}"] *)
Definition license_key_base (company_name : string) (t : LicenseTier)
    (nonce : string) : string :=
  company_name +:+ "-" +:+ value t +:+ "-" +:+ nonce.

(** [f"SAAAM-{hashlib.sha256(base.encode()).hexdigest()[:32]}"] *)
Definition license_key_of (base : string) : string :=
  "SAAAM-" +:+ substring 0 32 (hashlib.hexdigest (hashlib.sha256 (encode base))).

Definition _generate_license_key (company_name : string) (t : LicenseTier)
    : M string :=
  method "_generate_license_key" (
  global "uuid";;
  do nonce <- uuid4_hex;
  global "hashlib";;
  ret (license_key_of (license_key_base company_name t nonce))).

(** [f"saam-api-{hashlib.sha256(license_key.encode()).hexdigest()[:48]}"] *)
Definition api_key_of (license_key : string) : string :=
  "saam-api-" +:+
  substring 0 48 (hashlib.hexdigest (hashlib.sha256 (encode license_key))).

Definition _generate_api_key (license_key : string) : M string :=
  method "_generate_api_key" (
  global "hashlib";;
  ret (api_key_of license_key)).

(** ** [_calculate_access_level] *)

Definition levels (t : LicenseTier) : float :=
  match t with
  | BASIC => 0.25
  | PROFESSIONAL => 0.5
  | ENTERPRISE => 0.75
  | UNLIMITED => 0.95
  end%float.

Definition _calculate_access_level (t : LicenseTier) : M float :=
  method "_calculate_access_level" (
  global "LicenseTier";;
  ret (levels t)).

(** ** [generate_license]

    The constructor's arguments are evaluated left to right, after the name
    of the class; each [datetime.now()] reads the clock. *)

Definition generate_license (company_name : string) (t : LicenseTier)
    : M CommercialLicense :=
  do license_key <- _generate_license_key company_name t;
  do api_key <- _generate_api_key license_key;
  global "CommercialLicense";;
  do access_level <- _calculate_access_level t;
  do e_features <- features_of t;
  do e_qubits <- features_of t;
  do e_price <- features_of t;
  global "datetime";;
  do start_date <- datetime_now;
  global "datetime";;
  do now <- datetime_now;
  global "timedelta";;
  let license :=
    {| tier := t;
       company_name := company_name;
       license_key := license_key;
       access_level := access_level;
       features := entry_features e_features;
       api_key := api_key;
       quantum_allocation := qubits e_qubits;
       monthly_fee := price e_price;
       start_date := start_date;
       expiration_date := now + timedelta 30 |} in
  store license_key license;;
  ret license.

(** ** [calculate_monthly_revenue]

    The loop over [self.license_db.values()]. The source accumulates in a
    binary64 float started at [0.0]; the sum is taken here over the
    integers. The two agree on the registries of [fees_exact] below, and
    the properties of this sum are stated for those. *)

Definition calculate_monthly_revenue (s : QuantumCommercialSystem) : Z :=
  map_fold (fun _ license revenue => revenue + monthly_fee license) 0
           (license_db s).

(** The registries on which the float accumulator holds the integer sum:
    no fee is negative and the total is below [2^53]. Every partial sum, in
    whatever order the dict is walked, is then an integer below [2^53], so
    every fee converts exactly and every [+=] is exact. *)
Definition fees_exact (s : QuantumCommercialSystem) : Prop :=
  (forall k l, license_db s !! k = Some l -> 0 <= monthly_fee l)
  /\ calculate_monthly_revenue s < 2 ^ 53.

(** A license is expired at [now] when [now > expiration_date]. *)
Definition expired (now : Z) (l : CommercialLicense) : bool :=
  expiration_date l <? now.

(** The aggregation in the specification's words: the fees of the licenses
    that are not expired at [now]. *)
Definition revenue_snapshot_spec (now : Z) (s : QuantumCommercialSystem) : Z :=
  map_fold (fun _ license revenue =>
              if expired now license then revenue
              else revenue + monthly_fee license) 0 (license_db s).

(** The fees of the licenses that are expired at [now]. *)
Definition expired_fees (now : Z) (s : QuantumCommercialSystem) : Z :=
  map_fold (fun _ license revenue =>
              if expired now license then revenue + monthly_fee license
              else revenue) 0 (license_db s).

(** ** The request dispatcher *)

(** The registry is keyed by license key; the record holding a given API key
    is searched among its values. *)
Definition holder (key : string) (db : gmap string CommercialLicense)
    : option CommercialLicense :=
  snd <$> find (fun kl => String.eqb (api_key (snd kl)) key) (map_to_list db).

(** Modelled from the spec: [_verify_api_key] is called by
    [process_api_request] and defined nowhere in the class. Section 4.3,
    [authenticate]: lookup by API key, [InvalidCredentialError] if absent,
    [ExpiredLicenseError] if [now > expiration_date]; the record is left
    in the registry. *)
Definition _verify_api_key (key : string) : M (option CommercialLicense) :=
  method "_verify_api_key" (
  do now <- datetime_now;
  fun w => match holder key (license_db (self w)) with
           | None => raise InvalidCredentialError w
           | Some l => if expired now l then raise ExpiredLicenseError w
                       else ret (Some l) w
           end).

Definition one_second : Z := 1000000.

(** Modelled from the spec: the admission step of section 4.4 for a bounded
    ceiling. A window that has lasted a second, or that does not exist yet,
    is replaced by a new one starting at [now] with count 0; below the
    ceiling the count is incremented and the request admitted, otherwise it
    is rejected and the count kept. *)
Definition window_admission (now ceiling : Z) (key : string)
    (ws : gmap string RateWindow) : bool * gmap string RateWindow :=
  let fresh := {| window_start := now; count := 0 |} in
  let current :=
    match ws !! key with
    | Some rw => if window_start rw + one_second <=? now then fresh else rw
    | None => fresh
    end in
  if count current <? ceiling
  then (true, <[key := {| window_start := window_start current;
                          count := count current + 1 |}]> ws)
  else (false, <[key := current]> ws).

(** Modelled from the spec: [_check_rate_limits] is called by
    [process_api_request] and defined nowhere in the class. Section 4.4,
    [admit]: the ceiling is that of the license's tier, an unbounded ceiling
    always admits, a bounded one goes through [window_admission] at the
    current time with the window of the license key. *)
Definition _check_rate_limits (l : CommercialLicense) : M bool :=
  method "_check_rate_limits" (
  do e <- features_of (tier l);
  match api_calls_per_second e with
  | Infinity => ret true
  | PerSecond ceiling =>
      do now <- datetime_now;
      fun w =>
        let '(ok, ws) :=
          window_admission now ceiling (license_key l) (windows w) in
        (Ok ok, with_windows ws w)
  end).

(** [request: Dict] *)
Definition Request : Type := gmap string string.

(** The feature a request needs, and the entitlement check of section 4.5,
    step 3, in the specification's words. *)
Definition required_feature (request : Request) : option string :=
  request !! "required_feature"%string.

Definition entitled_spec (l : CommercialLicense) (request : Request) : bool :=
  match required_feature request with
  | Some f => bool_decide (f ∈ features l)
  | None => true
  end.

Section Methods.

(** The body of [process_api_request], for whatever the three methods it
    calls on [self] do. A verification that returns [None] stands for any
    falsy result, on which the dispatcher itself raises. *)
Variable Response : Type.
Variable verify : string -> M (option CommercialLicense).
Variable check : CommercialLicense -> M bool.
Variable execute : CommercialLicense -> Request -> M Response.

Definition process_api_request_with (key : string) (request : Request)
    : M Response :=
  do license <- verify key;
  match license with
  | None => raise (ValueError "Invalid API key")
  | Some license =>
      do allowed <- check license;
      if negb allowed then raise (ValueError "Rate limit exceeded")
      else method "_process_request" (execute license request)
  end.

End Methods.

Section Dispatcher.

(** The execution path behind the gateway, [self._process_request], is an
    external collaborator. *)
Variable Response : Type.
Variable _process_request : CommercialLicense -> Request -> M Response.

(** [process_api_request] with the verification and the rate check
    modelled above. *)
Definition process_api_request (key : string) (request : Request)
    : M Response :=
  process_api_request_with Response _verify_api_key _check_rate_limits
                           _process_request key request.

End Dispatcher.

(** [n] successive calls of the rate check for one license. *)
Fixpoint burst (l : CommercialLicense) (n : nat) : M (list bool) :=
  match n with
  | O => ret []
  | S n' =>
      do ok <- _check_rate_limits l;
      do oks <- burst l n';
      ret (ok :: oks)
  end.

(** ** Predicates used in the statements *)

Definition lower_hex (c : ascii) : bool :=
  existsb (Ascii.eqb c) (list_ascii_of_string "0123456789abcdef").

Fixpoint all_chars (p : ascii -> bool) (s : string) : bool :=
  match s with
  | EmptyString => true
  | String c s' => p c && all_chars p s'
  end.

(** A world right after the module is loaded and the system constructed. *)
Definition boot (clk : nat -> Z) (rnd : nat -> string) : World :=
  {| globals := module_globals; clock := clk; clock_reads := 0;
     entropy := rnd; entropy_draws := 0; self := __init__;
     windows := ∅; calls := [] |}.

(** [generate_license] up to the point where [timedelta] is evaluated: the
    clock has been read twice, a nonce drawn, three methods called, and the
    system object is the one the call started with. *)
Definition before_timedelta (w : World) : World :=
  tick (tick (logged "_calculate_access_level"
               (logged "_generate_api_key"
                 (draw (logged "_generate_license_key" w))))).

(** Two licenses as [generate_license] builds them, for the nonces
    [0123456789abcdef0123456789abcdef] and [fedcba9876543210fedcba9876543210],
    issued at instant 0. *)
Definition techcorp_license : CommercialLicense :=
  {| tier := ENTERPRISE;
     company_name := "TechCorp";
     license_key := "SAAAM-3451cf05773f206d553cf2075f08b447";
     access_level := 0.75;
     features := enterprise_features;
     api_key := "saam-api-7ce26612343df2f6f3b952edeeea68f11401626abeed9828";
     quantum_allocation := 1024;
     monthly_fee := 250000;
     start_date := 0;
     expiration_date := timedelta 30 |}.

Definition acme_license : CommercialLicense :=
  {| tier := BASIC;
     company_name := "Acme";
     license_key := "SAAAM-a59d851c7082e33d1b6dc0657431e7d4";
     access_level := 0.25;
     features := basic_features;
     api_key := "saam-api-dae50d13ff07f0a2e2487aa604adcafb9f8b91e892984c1c";
     quantum_allocation := 128;
     monthly_fee := 10000;
     start_date := 0;
     expiration_date := timedelta 30 |}.

(** A license of the top tier, for the nonce
    [00112233445566778899aabbccddeeff]. *)
Definition initech_license : CommercialLicense :=
  {| tier := UNLIMITED;
     company_name := "Initech";
     license_key := "SAAAM-df71b755470f713af9349bf841a855c8";
     access_level := 0.95;
     features := unlimited_features;
     api_key := "saam-api-1ad4101f6272e1dc38a40c9b82d40c33e0c735dc6e4f9dd5";
     quantum_allocation := 2048;
     monthly_fee := 1000000;
     start_date := 0;
     expiration_date := timedelta 30 |}.

(** A clock that ticks a microsecond per reading and jumps a second ahead
    after [n] readings. *)
Definition clock_with_pause (n : nat) (i : nat) : Z :=
  Z.of_nat i + if (n <? i)%nat then one_second else 0.

(** A system holding both. *)
Definition two_licenses : QuantumCommercialSystem :=
  {| license_db := <[license_key techcorp_license := techcorp_license]>
                  (<[license_key acme_license := acme_license]> ∅);
     revenue := 0;
     catalog := tier_table |}.

(** A world in which the system holds both licenses and nothing has been
    requested yet. *)
Definition serving (clk : nat -> Z) : World :=
  {| globals := module_globals; clock := clk; clock_reads := 0;
     entropy := fun _ => EmptyString; entropy_draws := 0;
     self := two_licenses; windows := ∅; calls := [] |}.

(** No two records of the registry hold the same API key. *)
Definition api_keys_unique (db : gmap string CommercialLicense) : Prop :=
  forall k1 k2 l1 l2,
    db !! k1 = Some l1 -> db !! k2 = Some l2 ->
    api_key l1 = api_key l2 -> k1 = k2.

(** No record of the registry holds the API key [key]. *)
Definition api_key_absent (key : string)
    (db : gmap string CommercialLicense) : Prop :=
  forall k l, db !! k = Some l -> api_key l <> key.

(** ** [int] to [float]

    Where Python converts an [int] to a [float] (in [int * float] and
    [float / int]) the result is the nearest binary64 value, ties to even,
    and [OverflowError] when that would be infinite. Above 62 bits the top
    62 bits and a sticky bit are converted and scaled back. [None] stands
    for the error. *)
Definition float_of_nonneg (n : Z) : option float :=
  let bits := if n =? 0 then 0 else Z.log2 n + 1 in
  if bits <=? 62 then Some (PrimFloat.of_uint63 (Uint63.of_Z n))
  else
    let shift := bits - 62 in
    let sticky := if n mod 2 ^ shift =? 0 then 0 else 1 in
    let m := Z.lor (Z.shiftl (Z.shiftr n shift) 1) sticky in
    let f := Z.ldexp (PrimFloat.of_uint63 (Uint63.of_Z m)) (shift - 1) in
    if PrimFloat.is_infinity f then None else Some f.

Definition float_of_Z (z : Z) : option float :=
  match z with
  | Zneg p => option_map PrimFloat.opp (float_of_nonneg (Zpos p))
  | _ => float_of_nonneg z
  end.

(** ** [generate_sales_forecast] *)

(** [range(months)] *)
Definition range (months : Z) : list Z :=
  map Z.of_nat (seq 0 (Z.to_nat months)).

(** [f"Month {month + 1}"] *)
Definition month_label (month : Z) : string :=
  "Month " +:+ pretty (month + 1).

Inductive arith_error := ZeroDivisionError | OverflowError.

Section Forecast.

(** [x ** n] for a float and an int is the platform's [pow]; [None] stands
    for its [OverflowError]. *)
Variable float_pow : float -> Z -> option float.

Fixpoint forecast_loop (revenue : float) (months : list Z)
    (forecast : gmap string float) : arith_error + gmap string float :=
  match months with
  | [] => inr forecast
  | month :: rest =>
      match float_pow (1 + 0.15)%float month with
      | None => inl OverflowError
      | Some growth =>
          forecast_loop revenue rest
            (<[month_label month := (revenue * growth)%float]> forecast)
      end
  end.

(** [current_revenue] is the float that [self.calculate_monthly_revenue()]
    returned at line 174, whatever it is. *)
Definition generate_sales_forecast (current_revenue : float)
    (months : Z) : arith_error + gmap string float :=
  forecast_loop current_revenue (range months) ∅.

End Forecast.

(** ** [QuotingSystem] *)

(** [self.base_prices[tier]] *)
Definition base_prices (t : LicenseTier) : Z :=
  match t with
  | BASIC => 10000
  | PROFESSIONAL => 50000
  | ENTERPRISE => 250000
  | UNLIMITED => 1000000
  end.

Definition per_user_prices (t : LicenseTier) : Z :=
  match t with
  | BASIC => 100
  | PROFESSIONAL => 200
  | ENTERPRISE => 300
  | UNLIMITED => 500
  end.

Definition _calculate_user_pricing (t : LicenseTier) (users : Z) : Z :=
  per_user_prices t * users.

Definition _calculate_duration_discount (months : Z) : float :=
  if 12 <=? months then 0.20%float
  else if 6 <=? months then 0.10%float
  else 0.0%float.

(** The dict returned by [generate_quote]. Under ['duration_discount'] the
    source puts the text of a float followed by a percent sign; the field
    holds that float. *)
Record Quote := {
  quote_company_name : string;
  quote_tier : string;
  quote_users : Z;
  quote_duration_months : Z;
  quote_base_price : Z;
  quote_user_price : Z;
  quote_duration_discount : float;
  quote_total : float;
  quote_monthly_payment : float }.

Definition generate_quote (company : string) (t : LicenseTier)
    (users duration_months : Z) : arith_error + Quote :=
  let base_price := base_prices t in
  let user_price := _calculate_user_pricing t users in
  let duration_discount := _calculate_duration_discount duration_months in
  match float_of_Z ((base_price + user_price) * duration_months) with
  | None => inl OverflowError
  | Some gross =>
      let total := (gross * (1 - duration_discount))%float in
      match float_of_Z duration_months with
      | None => inl OverflowError
      | Some months =>
          if (months =? 0)%float then inl ZeroDivisionError
          else inr {| quote_company_name := company;
                      quote_tier := value t;
                      quote_users := users;
                      quote_duration_months := duration_months;
                      quote_base_price := base_price;
                      quote_user_price := user_price;
                      quote_duration_discount :=
                        (duration_discount * 100)%float;
                      quote_total := total;
                      quote_monthly_payment := (total / months)%float |}
      end
  end.

(** ** Successive calls *)

(** The world after a series of issuance calls made one after the other,
    whatever each of them returned or raised. *)
Fixpoint after_issuances (calls : list (string * LicenseTier)) (w : World)
    : World :=
  match calls with
  | [] => w
  | (company, t) :: rest =>
      after_issuances rest (snd (generate_license company t w))
  end.

(** Order on the values under ['api_calls_per_second']: integers by size,
    all of them below [float('inf')]. *)
Definition rate_below (a b : rate) : Prop :=
  match a, b with
  | PerSecond x, PerSecond y => x < y
  | PerSecond _, Infinity => True
  | Infinity, _ => False
  end.

(** A power by repeated multiplication, which never overflows into an
    error; one possible [float_pow]. *)
Definition repeated_product (x : float) (n : Z) : option float :=
  Some (Nat.iter (Z.to_nat n) (fun a => (a * x)%float) 1%float).

(** * Properties *)

(** ** The digest against known values *)

Example sha256_constants :
  length hashlib.round_constants = 64%nat
  /\ hd 0 hashlib.round_constants = 0x428a2f98
  /\ last hashlib.round_constants = Some 0xc67178f2
  /\ hashlib.ra hashlib.initial_hash = 0x6a09e667
  /\ hashlib.rh hashlib.initial_hash = 0x5be0cd19.
Proof. vm_compute. repeat split. Qed.

Example sha256_abc :
  hashlib.hexdigest (hashlib.sha256 (encode "abc"))
  = "ba7816bf8f01cfea414140de5dae2223b00361a396177a9cb410ff61f20015ad"%string.
Proof. vm_compute. reflexivity. Qed.

Example sha256_empty :
  hashlib.hexdigest (hashlib.sha256 (encode ""))
  = "e3b0c44298fc1c149afbf4c8996fb92427ae41e4649b934ca495991b7852b855"%string.
Proof. vm_compute. reflexivity. Qed.

Example sha256_two_blocks :
  hashlib.hexdigest (hashlib.sha256
    (encode "TechCorp-QUANTUM_ENTERPRISE-0123456789abcdef0123456789abcdef"))
  = "3451cf05773f206d553cf2075f08b447962a800f39243ed358492c33f134d25c"%string.
Proof. vm_compute. reflexivity. Qed.

(** ** Shape of a digest *)

Lemma lower_hex_digit (d : Z) : lower_hex (hashlib.hex_digit d) = true.
Proof.
  destruct d as [|p|p]; [reflexivity| |reflexivity].
  do 4 (destruct p as [p|p|]; try reflexivity).
Qed.

Lemma all_chars_hex_word (x : Z) (tail : string) :
  all_chars lower_hex tail = true ->
  all_chars lower_hex (hashlib.hex_word x tail) = true.
Proof.
  intros Htail. unfold hashlib.hex_word, hashlib.nibble. cbn [all_chars].
  rewrite !lower_hex_digit, Htail. reflexivity.
Qed.

Lemma hexdigest_length (r : hashlib.regs) :
  String.length (hashlib.hexdigest r) = 64%nat.
Proof. reflexivity. Qed.

Lemma hexdigest_lower_hex (r : hashlib.regs) :
  all_chars lower_hex (hashlib.hexdigest r) = true.
Proof.
  unfold hashlib.hexdigest. repeat apply all_chars_hex_word. reflexivity.
Qed.

(** [s[:n]] *)
Lemma prefix_length (n : nat) (s : string) :
  String.length (substring 0 n s) = Nat.min n (String.length s).
Proof.
  revert s. induction n as [|n IH]; intros [|c s]; cbn; auto.
Qed.

Lemma prefix_all_chars (p : ascii -> bool) (n : nat) (s : string) :
  all_chars p s = true -> all_chars p (substring 0 n s) = true.
Proof.
  revert s. induction n as [|n IH]; intros [|c s]; cbn; auto.
  intros [Hc Hs]%andb_prop. rewrite Hc. cbn. auto.
Qed.

(** ** Running calls *)

Arguments license_key_of : simpl never.
Arguments api_key_of : simpl never.

Lemma global_bound (name : string) (w : World) :
  existsb (String.eqb name) (globals w) = true -> global name w = (Ok tt, w).
Proof. intros H. unfold global. rewrite H. reflexivity. Qed.

Lemma global_unbound (name : string) (w : World) :
  existsb (String.eqb name) (globals w) = false ->
  global name w = (Raise (NameError name), w).
Proof. intros H. unfold global. rewrite H. reflexivity. Qed.

Ltac bound HG :=
  cbn [globals logged draw tick with_self with_windows];
  rewrite HG; reflexivity.

Ltac step := unfold bind at 1; cbv beta iota.

Ltac step_global HG := step; rewrite global_bound by bound HG; cbv beta iota.

Lemma _generate_license_key_run (company_name : string) (t : LicenseTier)
    (w : World) :
  globals w = module_globals ->
  _generate_license_key company_name t w
  = (Ok (license_key_of
           (license_key_base company_name t (entropy w (entropy_draws w)))),
     draw (logged "_generate_license_key" w)).
Proof.
  intros HG. unfold _generate_license_key, method.
  step_global HG. step. unfold uuid4_hex at 1. cbv beta iota.
  step_global HG. reflexivity.
Qed.

Lemma _generate_api_key_run (key : string) (w : World) :
  globals w = module_globals ->
  _generate_api_key key w = (Ok (api_key_of key), logged "_generate_api_key" w).
Proof.
  intros HG. unfold _generate_api_key, method. step_global HG. reflexivity.
Qed.

Lemma _calculate_access_level_run (t : LicenseTier) (w : World) :
  globals w = module_globals ->
  _calculate_access_level t w
  = (Ok (levels t), logged "_calculate_access_level" w).
Proof.
  intros HG. unfold _calculate_access_level, method. step_global HG.
  reflexivity.
Qed.

Lemma features_of_run (t : LicenseTier) (w : World) (e : TierEntry) :
  catalog (self w) !! t = Some e -> features_of t w = (Ok e, w).
Proof. intros He. unfold features_of. rewrite He. reflexivity. Qed.

Lemma generate_license_run (company_name : string) (t : LicenseTier)
    (w : World) (e : TierEntry) :
  globals w = module_globals ->
  catalog (self w) !! t = Some e ->
  generate_license company_name t w
  = (Raise (NameError "timedelta"), before_timedelta w).
Proof.
  intros HG He. unfold generate_license.
  step. rewrite _generate_license_key_run by exact HG. cbv beta iota.
  step. rewrite _generate_api_key_run by bound HG. cbv beta iota.
  step_global HG.
  step. rewrite _calculate_access_level_run by bound HG. cbv beta iota.
  do 3 (step; rewrite (features_of_run t _ e) by exact He; cbv beta iota).
  step_global HG. step. unfold datetime_now at 1. cbv beta iota.
  step_global HG. step. unfold datetime_now at 1. cbv beta iota.
  step. rewrite global_unbound by bound HG. reflexivity.
Qed.

(** ** Issuance *)

(** C1. Every call of [generate_license] in the module as it is loaded, for
    every company name and every tier of the catalog, raises [NameError] on
    the name [timedelta], and leaves [license_db] and [revenue] as they
    were. *)
Theorem generate_license_raises_NameError (company_name : string)
    (t : LicenseTier) (w : World) :
  globals w = module_globals ->
  is_Some (catalog (self w) !! t) ->
  exists w',
    generate_license company_name t w = (Raise (NameError "timedelta"), w')
    /\ license_db (self w') = license_db (self w)
    /\ revenue (self w') = revenue (self w).
Proof.
  intros HG [e He]. exists (before_timedelta w).
  split; [by apply generate_license_run with e|]. split; reflexivity.
Qed.

Lemma generate_license_raises_NameError_witness :
  exists w',
    generate_license "TechCorp" ENTERPRISE
      (boot (fun n => Z.of_nat n) (fun _ => "0123456789abcdef0123456789abcdef"))
    = (Raise (NameError "timedelta"), w')
    /\ license_db (self w') = ∅
    /\ revenue (self w') = 0.
Proof.
  apply (generate_license_raises_NameError "TechCorp" ENTERPRISE
           (boot (fun n => Z.of_nat n)
                 (fun _ => "0123456789abcdef0123456789abcdef"))).
  - reflexivity.
  - vm_compute. eexists. reflexivity.
Defined.

(** ** Derived keys *)

Lemma license_key_of_format (base : string) :
  exists h, license_key_of base = "SAAAM-" +:+ h
            /\ String.length h = 32%nat
            /\ all_chars lower_hex h = true.
Proof.
  eexists. split; [reflexivity|]. split.
  - rewrite prefix_length, hexdigest_length. reflexivity.
  - apply prefix_all_chars, hexdigest_lower_hex.
Qed.

Lemma api_key_of_format (key : string) :
  exists h, api_key_of key = "saam-api-" +:+ h
            /\ String.length h = 48%nat
            /\ all_chars lower_hex h = true.
Proof.
  eexists. split; [reflexivity|]. split.
  - rewrite prefix_length, hexdigest_length. reflexivity.
  - apply prefix_all_chars, hexdigest_lower_hex.
Qed.

(** C9. For every company name, tier and nonce the license key is ["SAAAM-"]
    followed by 32 lowercase hexadecimal characters; for every license key
    the API key is ["saam-api-"] followed by 48 lowercase hexadecimal
    characters; the API key is a function of the license key alone
    ([api_key_of]), whatever the world the call runs in, so equal license
    keys give equal API keys. *)
Theorem derived_keys_format (company_name : string) (t : LicenseTier)
    (nonce key : string) (w w2 : World) :
  globals w = module_globals ->
  globals w2 = module_globals ->
  entropy w (entropy_draws w) = nonce ->
  (exists h,
      fst (_generate_license_key company_name t w) = Ok ("SAAAM-" +:+ h)
      /\ String.length h = 32%nat /\ all_chars lower_hex h = true)
  /\ (exists h,
      fst (_generate_api_key key w) = Ok ("saam-api-" +:+ h)
      /\ String.length h = 48%nat /\ all_chars lower_hex h = true)
  /\ fst (_generate_api_key key w) = Ok (api_key_of key)
  /\ fst (_generate_api_key key w2) = fst (_generate_api_key key w).
Proof.
  intros HG HG2 Hnonce.
  rewrite _generate_license_key_run, !_generate_api_key_run by assumption.
  cbn [fst]. repeat split.
  - destruct (license_key_of_format
                (license_key_base company_name t (entropy w (entropy_draws w))))
      as (h & -> & Hlen & Hhex).
    by exists h.
  - destruct (api_key_of_format key) as (h & -> & Hlen & Hhex). by exists h.
Qed.

Lemma derived_keys_format_witness :
  let w := boot (fun n => Z.of_nat n)
                (fun _ => "0123456789abcdef0123456789abcdef") in
  let key := "SAAAM-3451cf05773f206d553cf2075f08b447" in
  (exists h,
      fst (_generate_license_key "TechCorp" ENTERPRISE w) = Ok ("SAAAM-" +:+ h)
      /\ String.length h = 32%nat /\ all_chars lower_hex h = true)
  /\ (exists h,
      fst (_generate_api_key key w) = Ok ("saam-api-" +:+ h)
      /\ String.length h = 48%nat /\ all_chars lower_hex h = true)
  /\ fst (_generate_api_key key w) = Ok (api_key_of key)
  /\ fst (_generate_api_key key w) = fst (_generate_api_key key w).
Proof.
  apply (derived_keys_format "TechCorp" ENTERPRISE
           "0123456789abcdef0123456789abcdef"
           "SAAAM-3451cf05773f206d553cf2075f08b447"
           (boot (fun n => Z.of_nat n)
                 (fun _ => "0123456789abcdef0123456789abcdef"))
           (boot (fun n => Z.of_nat n)
                 (fun _ => "0123456789abcdef0123456789abcdef")));
    reflexivity.
Defined.

(** The keys of the example in [main], for a given nonce. *)
Example techcorp_keys :
  license_key_of (license_key_base "TechCorp" ENTERPRISE
                    "0123456789abcdef0123456789abcdef")
  = "SAAAM-3451cf05773f206d553cf2075f08b447"
  /\ api_key_of "SAAAM-3451cf05773f206d553cf2075f08b447"
     = "saam-api-7ce26612343df2f6f3b952edeeea68f11401626abeed9828".
Proof. split; vm_compute; reflexivity. Qed.

(** ** Access levels *)

(** C8. The access level given at issuance increases strictly with the rank
    of the tier (BASIC, PROFESSIONAL, ENTERPRISE, UNLIMITED) and is strictly
    below 1.0 for every tier, the top one included. *)
Theorem access_level_monotone_below_one (t1 t2 : LicenseTier) (w : World) :
  globals w = module_globals ->
  (rank t1 < rank t2)%nat ->
  fst (_calculate_access_level t1 w) = Ok (levels t1)
  /\ (levels t1 <? levels t2)%float = true
  /\ (levels t1 <? 1)%float = true
  /\ (levels t2 <? 1)%float = true.
Proof.
  intros HG Hrank. rewrite _calculate_access_level_run by exact HG.
  split; [reflexivity|].
  destruct t1, t2; cbn in Hrank; try lia; repeat split; reflexivity.
Qed.

Lemma access_level_monotone_below_one_witness :
  fst (_calculate_access_level ENTERPRISE
         (boot (fun n => Z.of_nat n) (fun _ => ""))) = Ok 0.75%float
  /\ (0.75 <? 0.95)%float = true
  /\ (0.75 <? 1)%float = true
  /\ (0.95 <? 1)%float = true.
Proof.
  apply (access_level_monotone_below_one ENTERPRISE UNLIMITED
           (boot (fun n => Z.of_nat n) (fun _ => ""))).
  - reflexivity.
  - cbn. lia.
Defined.

(** ** The tier table *)

Lemma tier_table_lookup (t : LicenseTier) :
  tier_table !! t
  = Some match t with
         | BASIC =>
             {| qubits := 128; api_calls_per_second := PerSecond 10;
                entry_features := basic_features; price := 10000 |}
         | PROFESSIONAL =>
             {| qubits := 512; api_calls_per_second := PerSecond 50;
                entry_features := professional_features; price := 50000 |}
         | ENTERPRISE =>
             {| qubits := 1024; api_calls_per_second := PerSecond 250;
                entry_features := enterprise_features; price := 250000 |}
         | UNLIMITED =>
             {| qubits := 2048; api_calls_per_second := Infinity;
                entry_features := unlimited_features; price := 1000000 |}
         end.
Proof. destruct t; reflexivity. Qed.

Ltac decide_sets :=
  match goal with
  | |- ?P => apply (bool_decide_eq_true_1 P); vm_compute; reflexivity
  end.

(** C3, as stated, fails: BASIC is cheaper than PROFESSIONAL and holds
    ['basic_optimization'], which PROFESSIONAL does not. *)
Lemma features_not_nested :
  exists e1 e2,
    tier_table !! BASIC = Some e1 /\ tier_table !! PROFESSIONAL = Some e2
    /\ price e1 < price e2
    /\ ~ entry_features e1 ⊆ entry_features e2.
Proof.
  do 2 eexists. rewrite !tier_table_lookup.
  split; [reflexivity|]. split; [reflexivity|]. split; [reflexivity|].
  cbn [entry_features]. intros Hsub.
  assert (Hin : "basic_optimization"%string ∈ professional_features).
  { apply Hsub. decide_sets. }
  revert Hin.
  apply (bool_decide_eq_false_1
           ("basic_optimization"%string ∈ professional_features)).
  vm_compute. reflexivity.
Qed.

(** C3, amended. For every pair of tiers of the table with the first
    strictly cheaper than the second, every feature of the first other than
    ['basic_optimization'] is a feature of the second. *)
Theorem features_nested_but_basic_optimization (t1 t2 : LicenseTier)
    (e1 e2 : TierEntry) :
  tier_table !! t1 = Some e1 ->
  tier_table !! t2 = Some e2 ->
  price e1 < price e2 ->
  entry_features e1 ∖ {[ "basic_optimization"%string ]} ⊆ entry_features e2.
Proof.
  rewrite !tier_table_lookup. intros [= <-] [= <-] Hprice.
  destruct t1, t2; cbn in Hprice; try lia; cbn [entry_features];
    decide_sets.
Qed.

Lemma features_nested_but_basic_optimization_witness :
  basic_features ∖ {[ "basic_optimization"%string ]} ⊆ professional_features.
Proof.
  apply (features_nested_but_basic_optimization BASIC PROFESSIONAL
           {| qubits := 128; api_calls_per_second := PerSecond 10;
              entry_features := basic_features; price := 10000 |}
           {| qubits := 512; api_calls_per_second := PerSecond 50;
              entry_features := professional_features; price := 50000 |}).
  - reflexivity.
  - reflexivity.
  - cbn. lia.
Defined.

(** ** Issuance, whatever names are bound *)

(** What a call of [generate_license] comes to in any world: either it
    raises, on a name or on the table lookup, and the system object is
    untouched; or it returns the license it has stored under its key. *)
Lemma generate_license_outcome (company : string) (t : LicenseTier)
    (w : World) :
  match generate_license company t w with
  | (Raise e, w') =>
      ((exists name, e = NameError name)
       \/ (e = KeyError /\ catalog (self w) !! t = None))
      /\ self w' = self w
  | (Ok l, w') =>
      license_db (self w') = <[license_key l := l]> (license_db (self w))
      /\ company_name l = company
      /\ tier l = t
      /\ api_key l = api_key_of (license_key l)
      /\ start_date l = clock w (clock_reads w)
      /\ expiration_date l = clock w (S (clock_reads w)) + timedelta 30
  end.
Proof.
  unfold generate_license, _generate_license_key, _generate_api_key,
    _calculate_access_level, method, bind, global, uuid4_hex, datetime_now,
    features_of, store, ret.
  destruct (catalog (self w) !! t) eqn:He;
    repeat (cbn [globals logged draw tick with_self self catalog clock
                 clock_reads license_db license_key company_name tier
                 api_key start_date expiration_date];
            first [ rewrite He
                  | match goal with
                    | |- context [existsb ?f (globals w)] =>
                        destruct (existsb f (globals w))
                    end ]);
    cbn [globals logged draw tick with_self self catalog clock
         clock_reads license_db license_key company_name tier
         api_key start_date expiration_date];
    eauto 10.
Qed.

(** Whether a call raises, and what, does not depend on the company name:
    the names evaluated and the table lookup are the same. *)
Lemma generate_license_error_any_name (c1 c2 : string) (t : LicenseTier)
    (w : World) (e : exn) :
  fst (generate_license c1 t w) = Raise e ->
  fst (generate_license c2 t w) = Raise e.
Proof.
  unfold generate_license, _generate_license_key, _generate_api_key,
    _calculate_access_level, method, bind, global, uuid4_hex, datetime_now,
    features_of, store, ret.
  destruct (catalog (self w) !! t) eqn:He;
    destruct (existsb (String.eqb "uuid") (globals w)) eqn:E1;
    destruct (existsb (String.eqb "hashlib") (globals w)) eqn:E2;
    destruct (existsb (String.eqb "CommercialLicense") (globals w)) eqn:E3;
    destruct (existsb (String.eqb "LicenseTier") (globals w)) eqn:E4;
    destruct (existsb (String.eqb "datetime") (globals w)) eqn:E5;
    destruct (existsb (String.eqb "timedelta") (globals w)) eqn:E6;
    repeat (cbn [globals logged draw tick with_self self catalog fst];
            rewrite ?He, ?E1, ?E2, ?E3, ?E4, ?E5, ?E6);
    cbn [fst]; congruence.
Qed.

(** A tier missing from the table stops the call at the table lookup. *)
Lemma generate_license_missing_tier (company : string) (t : LicenseTier)
    (w : World) :
  globals w = module_globals ->
  catalog (self w) !! t = None ->
  fst (generate_license company t w) = Raise KeyError.
Proof.
  intros HG Hnone. unfold generate_license.
  step. rewrite _generate_license_key_run by exact HG. cbv beta iota.
  step. rewrite _generate_api_key_run by bound HG. cbv beta iota.
  step_global HG.
  step. rewrite _calculate_access_level_run by bound HG. cbv beta iota.
  step. unfold features_of at 1. cbn [self logged draw catalog].
  rewrite Hnone. reflexivity.
Qed.

(** C4, as stated, fails: issuance with an empty company name fails on the
    name [timedelta], and issuance for a tier missing from the table fails
    on the table lookup; neither is [InvalidRequestError]. *)
Lemma generate_license_no_InvalidRequestError :
  let w := boot (fun n => Z.of_nat n)
                (fun _ => "0123456789abcdef0123456789abcdef") in
  let no_table :=
    with_self {| license_db := ∅; revenue := 0; catalog := ∅ |} w in
  fst (generate_license "" BASIC w) = Raise (NameError "timedelta")
  /\ fst (generate_license "" BASIC w) <> Raise InvalidRequestError
  /\ fst (generate_license "TechCorp" BASIC no_table) = Raise KeyError
  /\ fst (generate_license "TechCorp" BASIC no_table)
     <> Raise InvalidRequestError.
Proof.
  assert (H1 : fst (generate_license "" BASIC
                      (boot (fun n => Z.of_nat n)
                            (fun _ => "0123456789abcdef0123456789abcdef")))
               = Raise (NameError "timedelta")) by (vm_compute; reflexivity).
  assert (H2 : fst (generate_license "TechCorp" BASIC
                      (with_self
                         {| license_db := ∅; revenue := 0; catalog := ∅ |}
                         (boot (fun n => Z.of_nat n)
                               (fun _ => "0123456789abcdef0123456789abcdef"))))
               = Raise KeyError) by (vm_compute; reflexivity).
  cbv zeta. rewrite H1, H2. repeat split; discriminate.
Qed.

(** C4, amended. Issuance validates nothing itself: it never fails with
    [InvalidRequestError]; an empty company name fails exactly when, and as,
    any other name does; a tier missing from the table fails with the
    [KeyError] of the table lookup; and a call that fails issues no
    license. *)
Theorem generate_license_validates_nothing (company : string)
    (t : LicenseTier) (w : World) :
  fst (generate_license company t w) <> Raise InvalidRequestError
  /\ (forall e, fst (generate_license "" t w) = Raise e
                <-> fst (generate_license company t w) = Raise e)
  /\ (globals w = module_globals -> catalog (self w) !! t = None ->
      fst (generate_license company t w) = Raise KeyError)
  /\ (forall e, fst (generate_license company t w) = Raise e ->
      license_db (self (snd (generate_license company t w)))
      = license_db (self w)).
Proof.
  pose proof (generate_license_outcome company t w) as Hout.
  split; [|split; [|split]].
  - destruct (generate_license company t w) as [[l|e] w']; cbn [fst].
    + discriminate.
    + destruct Hout as [[[name ->]|[-> _]] _]; discriminate.
  - intros e. split; apply generate_license_error_any_name.
  - apply generate_license_missing_tier.
  - destruct (generate_license company t w) as [[l|e] w']; cbn [fst snd].
    + discriminate.
    + intros _ _. destruct Hout as [_ ->]. reflexivity.
Qed.

Lemma generate_license_validates_nothing_witness :
  let w := boot (fun n => Z.of_nat n)
                (fun _ => "0123456789abcdef0123456789abcdef") in
  fst (generate_license "" BASIC w) <> Raise InvalidRequestError
  /\ (forall e, fst (generate_license "" BASIC w) = Raise e
                <-> fst (generate_license "" BASIC w) = Raise e)
  /\ (globals w = module_globals -> catalog (self w) !! BASIC = None ->
      fst (generate_license "" BASIC w) = Raise KeyError)
  /\ (forall e, fst (generate_license "" BASIC w) = Raise e ->
      license_db (self (snd (generate_license "" BASIC w)))
      = license_db (self w)).
Proof.
  exact (generate_license_validates_nothing "" BASIC
           (boot (fun n => Z.of_nat n)
                 (fun _ => "0123456789abcdef0123456789abcdef"))).
Defined.

(** ** Validity period *)

(** When a call returns, the start is the first reading of the clock and
    the expiration is the second reading plus thirty days. *)
Lemma generate_license_dates (company : string) (t : LicenseTier)
    (w w' : World) (l : CommercialLicense) :
  generate_license company t w = (Ok l, w') ->
  start_date l = clock w (clock_reads w)
  /\ expiration_date l = clock w (S (clock_reads w)) + timedelta 30.
Proof.
  intros Hrun. pose proof (generate_license_outcome company t w) as Hout.
  rewrite Hrun in Hout. tauto.
Qed.

(** C10. The issuance of [main], in the module as it is loaded: the call
    reads the clock twice and raises on [timedelta] before any license
    exists, so no license with a thirty-day validity is produced. *)
Theorem standard_issuance_yields_no_license :
  let w := boot (fun n => Z.of_nat n)
                (fun _ => "0123456789abcdef0123456789abcdef") in
  fst (generate_license "TechCorp" ENTERPRISE w)
  = Raise (NameError "timedelta")
  /\ clock_reads (snd (generate_license "TechCorp" ENTERPRISE w)) = 2%nat
  /\ license_db (self (snd (generate_license "TechCorp" ENTERPRISE w))) = ∅
  /\ forall l, fst (generate_license "TechCorp" ENTERPRISE w) <> Ok l.
Proof.
  cbv zeta.
  rewrite (generate_license_run "TechCorp" ENTERPRISE _
             {| qubits := 1024; api_calls_per_second := PerSecond 250;
                entry_features := enterprise_features; price := 250000 |})
    by reflexivity.
  repeat split. discriminate.
Qed.

(** ** Revenue *)

(** C5, as stated, fails: once both licenses of [two_licenses] are past
    their expiration the loop still returns the sum of their fees, where
    the sum over the licenses that are not expired is zero. *)
Lemma revenue_counts_expired_license :
  calculate_monthly_revenue two_licenses = 260000
  /\ revenue_snapshot_spec (timedelta 31) two_licenses = 0
  /\ calculate_monthly_revenue two_licenses
     <> revenue_snapshot_spec (timedelta 31) two_licenses.
Proof.
  assert (Ha : calculate_monthly_revenue two_licenses = 260000)
    by (vm_compute; reflexivity).
  assert (Hb : revenue_snapshot_spec (timedelta 31) two_licenses = 0)
    by (vm_compute; reflexivity).
  rewrite Ha, Hb. repeat split. discriminate.
Qed.

(** The sum over a registry splits, at any instant, into the fees of the
    licenses that are not expired and the fees of those that are; neither
    part is negative when no fee is. *)
Lemma revenue_sum_splits (now : Z) (db : gmap string CommercialLicense) :
  let s := {| license_db := db; revenue := 0; catalog := ∅ |} in
  calculate_monthly_revenue s
  = revenue_snapshot_spec now s + expired_fees now s
  /\ ((forall k l, db !! k = Some l -> 0 <= monthly_fee l) ->
      0 <= revenue_snapshot_spec now s /\ 0 <= expired_fees now s).
Proof.
  cbv zeta.
  unfold calculate_monthly_revenue, revenue_snapshot_spec, expired_fees.
  cbn [license_db].
  induction db as [|key l db Hfresh [IHsum IHpos]] using map_ind.
  - rewrite !map_fold_empty. split; [reflexivity|]. intros _. lia.
  - rewrite !map_fold_insert_L; try exact Hfresh.
    + split.
      * rewrite IHsum. destruct (expired now l); lia.
      * intros Hfees.
        assert (0 <= monthly_fee l) by (apply (Hfees key), lookup_insert_eq).
        destruct IHpos as [Hsnap Hexp].
        { intros k l' Hk. apply (Hfees k).
          rewrite lookup_insert_ne; [exact Hk|]. congruence. }
        destruct (expired now l); lia.
    + intros j1 j2 l1 l2 y _ _ _.
      destruct (expired now l1), (expired now l2); lia.
    + intros j1 j2 l1 l2 y _ _ _.
      destruct (expired now l1), (expired now l2); lia.
    + intros; lia.
Qed.

(** C5, amended. On a registry whose fees are not negative and total less
    than [2^53], where the float accumulator is exact,
    [calculate_monthly_revenue] returns the sum of the monthly fees of all
    the licenses, expired or not: at any instant it is the sum over the
    licenses that are not expired plus the sum over those that are, so it
    is never less than the former. *)
Theorem calculate_monthly_revenue_counts_all (now : Z)
    (s : QuantumCommercialSystem) :
  fees_exact s ->
  calculate_monthly_revenue s
  = revenue_snapshot_spec now s + expired_fees now s
  /\ 0 <= expired_fees now s
  /\ 0 <= revenue_snapshot_spec now s <= calculate_monthly_revenue s.
Proof.
  intros [Hfees _].
  destruct (revenue_sum_splits now (license_db s)) as [Hsum Hpos].
  destruct (Hpos Hfees) as [Hsnap Hexp].
  unfold calculate_monthly_revenue, revenue_snapshot_spec, expired_fees in *.
  cbn [license_db] in *. lia.
Qed.

(** ** Authentication *)

Lemma holder_stored (db : gmap string CommercialLicense) (k : string)
    (l : CommercialLicense) :
  api_keys_unique db -> db !! k = Some l -> holder (api_key l) db = Some l.
Proof.
  intros Huniq Hk. unfold holder.
  destruct (find _ (map_to_list db)) as [[k2 l2]|] eqn:Hfind; cbn.
  - apply find_some in Hfind as [Hin Heq]. cbn in Heq.
    apply String.eqb_eq in Heq.
    apply list_elem_of_In, elem_of_map_to_list in Hin.
    assert (k2 = k) as -> by (eapply Huniq; eassumption).
    congruence.
  - exfalso.
    assert (Hin : In (k, l) (map_to_list db))
      by (apply list_elem_of_In, elem_of_map_to_list, Hk).
    apply (find_none _ _ Hfind) in Hin. cbn in Hin.
    rewrite String.eqb_refl in Hin. discriminate.
Qed.

Lemma holder_absent (db : gmap string CommercialLicense) (key : string) :
  api_key_absent key db -> holder key db = None.
Proof.
  intros Habs. unfold holder.
  destruct (find _ (map_to_list db)) as [[k2 l2]|] eqn:Hfind; [|reflexivity].
  apply find_some in Hfind as [Hin Heq]. cbn in Heq.
  apply String.eqb_eq in Heq.
  apply list_elem_of_In, elem_of_map_to_list in Hin.
  destruct (Habs k2 l2 Hin Heq).
Qed.

Lemma _verify_api_key_run (key : string) (w : World) :
  _verify_api_key key w
  = (match holder key (license_db (self w)) with
     | None => Raise InvalidCredentialError
     | Some l => if expired (clock w (clock_reads w)) l
                 then Raise ExpiredLicenseError else Ok (Some l)
     end,
     tick (logged "_verify_api_key" w)).
Proof.
  unfold _verify_api_key, method, bind, datetime_now, raise, ret.
  cbn [self tick logged clock clock_reads].
  destruct (holder key (license_db (self w))) as [l|]; [|reflexivity].
  destruct (expired _ l); reflexivity.
Qed.

Lemma process_api_request_unverified (Response : Type)
    (exec : CommercialLicense -> Request -> M Response)
    (key : string) (request : Request) (w : World) (e : exn) :
  fst (_verify_api_key key w) = Raise e ->
  process_api_request Response exec key request w
  = (Raise e, tick (logged "_verify_api_key" w)).
Proof.
  unfold process_api_request, process_api_request_with. step.
  rewrite _verify_api_key_run. cbn [fst]. intros ->. reflexivity.
Qed.

(** C6. A stored license whose API key is presented after its expiration
    is rejected with [ExpiredLicenseError], by the verification and by the
    dispatcher alike; a key that no record holds is rejected with
    [InvalidCredentialError], a different error; the expired record stays
    in the registry. *)
Theorem expired_license_rejected (Response : Type)
    (exec : CommercialLicense -> Request -> M Response)
    (request : Request) (w : World) (k absent : string)
    (l : CommercialLicense) :
  api_keys_unique (license_db (self w)) ->
  license_db (self w) !! k = Some l ->
  expiration_date l < clock w (clock_reads w) ->
  api_key_absent absent (license_db (self w)) ->
  fst (_verify_api_key (api_key l) w) = Raise ExpiredLicenseError
  /\ fst (process_api_request Response exec (api_key l) request w)
     = Raise ExpiredLicenseError
  /\ fst (_verify_api_key absent w) = Raise InvalidCredentialError
  /\ ExpiredLicenseError <> InvalidCredentialError
  /\ license_db (self (snd (_verify_api_key (api_key l) w))) !! k = Some l
  /\ license_db
       (self (snd (process_api_request Response exec (api_key l) request w)))
     !! k = Some l.
Proof.
  intros Huniq Hk Hpast Habs.
  assert (Hrun : fst (_verify_api_key (api_key l) w)
                 = Raise ExpiredLicenseError).
  { rewrite _verify_api_key_run. cbn [fst].
    rewrite (holder_stored _ k) by assumption.
    unfold expired. destruct (Z.ltb_spec (expiration_date l)
                                (clock w (clock_reads w))); [reflexivity|lia]. }
  rewrite (process_api_request_unverified _ _ _ _ _ _ Hrun).
  rewrite !_verify_api_key_run in *. cbn [fst snd self tick logged].
  rewrite (holder_absent _ absent) by assumption.
  repeat split; try assumption; discriminate.
Qed.

Lemma two_licenses_lookup (k : string) (l : CommercialLicense) :
  license_db two_licenses !! k = Some l ->
  (k = license_key techcorp_license /\ l = techcorp_license)
  \/ (k = license_key acme_license /\ l = acme_license).
Proof.
  unfold two_licenses. cbn [license_db].
  intros [[<- <-]|[_ [[<- <-]|[_ H]]%lookup_insert_Some]]%lookup_insert_Some.
  - by left.
  - by right.
  - rewrite lookup_empty in H. discriminate.
Qed.

Lemma two_licenses_unique : api_keys_unique (license_db two_licenses).
Proof.
  intros k1 k2 l1 l2 H1 H2.
  apply two_licenses_lookup in H1 as [[-> ->]|[-> ->]];
    apply two_licenses_lookup in H2 as [[-> ->]|[-> ->]];
    cbn; intros Heq; first [reflexivity | discriminate Heq].
Qed.

Lemma two_licenses_absent :
  api_key_absent "saam-api-unknown" (license_db two_licenses).
Proof.
  intros k l [[-> ->]|[-> ->]]%two_licenses_lookup; cbn; discriminate.
Qed.

Lemma expired_license_rejected_witness :
  let w := serving (fun n => timedelta 31 + Z.of_nat n) in
  let key := api_key techcorp_license in
  let exec := fun (_ : CommercialLicense) (_ : Request) => ret tt in
  fst (_verify_api_key key w) = Raise ExpiredLicenseError
  /\ fst (process_api_request unit exec key ∅ w) = Raise ExpiredLicenseError
  /\ fst (_verify_api_key "saam-api-unknown" w) = Raise InvalidCredentialError
  /\ ExpiredLicenseError <> InvalidCredentialError
  /\ license_db (self (snd (_verify_api_key key w)))
     !! license_key techcorp_license = Some techcorp_license
  /\ license_db (self (snd (process_api_request unit exec key ∅ w)))
     !! license_key techcorp_license = Some techcorp_license.
Proof.
  apply (expired_license_rejected unit (fun _ _ => ret tt) ∅
           (serving (fun n => timedelta 31 + Z.of_nat n))
           (license_key techcorp_license) "saam-api-unknown"
           techcorp_license).
  - exact two_licenses_unique.
  - reflexivity.
  - vm_compute. reflexivity.
  - exact two_licenses_absent.
Defined.

(** ** Order of the checks *)

Lemma _check_rate_limits_run (l : CommercialLicense) (w : World) :
  _check_rate_limits l w
  = match catalog (self w) !! tier l with
    | None => (Raise KeyError, logged "_check_rate_limits" w)
    | Some e =>
        match api_calls_per_second e with
        | Infinity => (Ok true, logged "_check_rate_limits" w)
        | PerSecond ceiling =>
            let step :=
              window_admission (clock w (clock_reads w)) ceiling
                               (license_key l) (windows w) in
            (Ok (fst step),
             with_windows (snd step) (tick (logged "_check_rate_limits" w)))
        end
    end.
Proof.
  unfold _check_rate_limits, method, bind, features_of, datetime_now, ret.
  cbn [self logged catalog].
  destruct (catalog (self w) !! tier l) as [e|]; [|reflexivity].
  destruct (api_calls_per_second e) as [ceiling|]; [|reflexivity].
  cbn [clock clock_reads logged tick windows].
  destruct (window_admission _ ceiling _ _); reflexivity.
Qed.

Lemma _check_rate_limits_calls (l : CommercialLicense) (w : World) :
  calls (snd (_check_rate_limits l w)) = calls w ++ ["_check_rate_limits"].
Proof.
  rewrite _check_rate_limits_run.
  destruct (catalog (self w) !! tier l) as [e|]; [|reflexivity].
  destruct (api_calls_per_second e); reflexivity.
Qed.

(** C7, as stated, fails: a request for ['quantum_ml'] under the BASIC
    license of Acme, which is not entitled to it, goes through the
    verification and the rate check and is executed. *)
Lemma unentitled_request_reaches_execution :
  let w := serving (fun n => Z.of_nat n) in
  let request : Request := {[ "required_feature" := "quantum_ml" ]}%string in
  let exec := fun (_ : CommercialLicense) (_ : Request) => ret "executed" in
  let run := process_api_request string exec (api_key acme_license) request w in
  entitled_spec acme_license request = false
  /\ fst run = Ok "executed"%string
  /\ calls (snd run)
     = ["_verify_api_key"; "_check_rate_limits"; "_process_request"]%string.
Proof. vm_compute. repeat split. Qed.

(** With the verification and the rate check modelled above, the log of
    calls shows the order: only the verification when it rejects, the
    verification then the rate check otherwise, and the execution path
    after both. *)
Lemma process_api_request_log (Response : Type)
    (key : string) (request : Request) (w : World) :
  let w1 := tick (logged "_verify_api_key" w) in
  (exists e,
      fst (_verify_api_key key w) = Raise e
      /\ windows w1 = windows w
      /\ calls w1 = calls w ++ ["_verify_api_key"]
      /\ forall exec,
          process_api_request Response exec key request w = (Raise e, w1))
  \/ (exists l e w2,
      fst (_verify_api_key key w) = Ok (Some l)
      /\ (_check_rate_limits l w1 = (Raise e, w2)
          \/ (_check_rate_limits l w1 = (Ok false, w2)
              /\ e = ValueError "Rate limit exceeded"))
      /\ calls w2 = calls w ++ ["_verify_api_key"; "_check_rate_limits"]
      /\ forall exec,
          process_api_request Response exec key request w = (Raise e, w2))
  \/ (exists l w2,
      fst (_verify_api_key key w) = Ok (Some l)
      /\ _check_rate_limits l w1 = (Ok true, w2)
      /\ calls w2 = calls w ++ ["_verify_api_key"; "_check_rate_limits"]
      /\ forall exec,
          process_api_request Response exec key request w
          = exec l request (logged "_process_request" w2)).
Proof.
  intros w1.
  assert (Hcalls : forall l, calls (snd (_check_rate_limits l w1))
                   = calls w ++ ["_verify_api_key"; "_check_rate_limits"]).
  { intros l. rewrite _check_rate_limits_calls. subst w1.
    cbn [calls tick logged]. rewrite <- app_assoc. reflexivity. }
  unfold process_api_request, process_api_request_with, bind.
  rewrite _verify_api_key_run. fold w1. cbn [fst].
  destruct (holder key (license_db (self w))) as [l|].
  - destruct (expired (clock w (clock_reads w)) l).
    + left. exists ExpiredLicenseError. repeat split.
    + right. specialize (Hcalls l).
      destruct (_check_rate_limits l w1) as [[[|]|e] w2] eqn:Hcheck;
        cbn [snd] in Hcalls.
      * right. exists l, w2. repeat split; assumption.
      * left. exists l, (ValueError "Rate limit exceeded"), w2.
        repeat split; try assumption.
        right. split; [exact Hcheck|reflexivity].
      * left. exists l, e, w2. repeat split; try assumption.
        left. exact Hcheck.
  - left. exists InvalidCredentialError. repeat split.
Qed.

Lemma _verify_api_key_windows (key : string) (w : World) :
  windows (snd (_verify_api_key key w)) = windows w.
Proof. rewrite _verify_api_key_run. reflexivity. Qed.

(** C7, amended. Whatever the verification, the rate check and the
    execution path do, authentication comes before admission and both
    before execution. When the verification raises, or returns nothing so
    that the dispatcher raises [ValueError] itself, the rate check and the
    execution path are not run: the call ends in the world the verification
    left, where the rate windows are as they were if the verification does
    not touch them. Otherwise the rate check runs in that world; when it
    raises or refuses, the execution path is not run; when it allows, the
    request is handed to the execution path, in the world the rate check
    left. The dispatcher makes no entitlement check of its own. *)
Theorem authentication_precedes_admission (Response : Type)
    (verify : string -> M (option CommercialLicense))
    (check : CommercialLicense -> M bool)
    (key : string) (request : Request) (w : World) :
  (forall key' w', windows (snd (verify key' w')) = windows w') ->
  let w1 := snd (verify key w) in
  match fst (verify key w) with
  | Raise e =>
      windows w1 = windows w
      /\ forall execute,
          process_api_request_with Response verify check execute
                                   key request w
          = (Raise e, w1)
  | Ok None =>
      windows w1 = windows w
      /\ forall execute,
          process_api_request_with Response verify check execute
                                   key request w
          = (Raise (ValueError "Invalid API key"), w1)
  | Ok (Some l) =>
      let w2 := snd (check l w1) in
      match fst (check l w1) with
      | Raise e =>
          forall execute,
            process_api_request_with Response verify check execute
                                     key request w
            = (Raise e, w2)
      | Ok false =>
          forall execute,
            process_api_request_with Response verify check execute
                                     key request w
            = (Raise (ValueError "Rate limit exceeded"), w2)
      | Ok true =>
          forall execute,
            process_api_request_with Response verify check execute
                                     key request w
            = execute l request (logged "_process_request" w2)
      end
  end.
Proof.
  intros Hframe. cbv zeta. unfold process_api_request_with, bind, raise.
  pose proof (Hframe key w) as Hwindows.
  destruct (verify key w) as [[[l|]|e] w1]; cbn [fst snd] in *.
  - destruct (check l w1) as [[[|]|e] w2]; cbn [fst snd negb];
      intros execute; reflexivity.
  - split; [exact Hwindows|]. intros execute. reflexivity.
  - split; [exact Hwindows|]. intros execute. reflexivity.
Qed.

Lemma authentication_precedes_admission_witness :
  let w := serving (fun n => Z.of_nat n) in
  let w1 := snd (_verify_api_key "saam-api-unknown" w) in
  windows w1 = windows w
  /\ forall execute : CommercialLicense -> Request -> M unit,
      process_api_request_with unit _verify_api_key _check_rate_limits
                               execute "saam-api-unknown" ∅ w
      = (Raise InvalidCredentialError, w1).
Proof.
  pose proof (authentication_precedes_admission unit _verify_api_key
                _check_rate_limits "saam-api-unknown" ∅
                (serving (fun n => Z.of_nat n)) _verify_api_key_windows)
    as H.
  cbv zeta in H.
  assert (Hfst : fst (_verify_api_key "saam-api-unknown"
                        (serving (fun n => Z.of_nat n)))
                 = Raise InvalidCredentialError)
    by (vm_compute; reflexivity).
  rewrite Hfst in H. exact H.
Defined.

(** A verification that returns nothing: the dispatcher raises, and neither
    the rate check nor the execution path runs. *)
Example falsy_license_rejected :
  let w := serving (fun n => Z.of_nat n) in
  let run :=
    process_api_request_with string (fun _ => ret None) _check_rate_limits
      (fun _ _ => ret "executed"%string) "any key" ∅ w in
  run = (Raise (ValueError "Invalid API key"), w).
Proof. reflexivity. Qed.

(** ** Rate limiting *)

Lemma window_admission_open (ceiling : Z) (key : string)
    (ws : gmap string RateWindow) (t c now : Z) :
  ws !! key = Some {| window_start := t; count := c |} ->
  now < t + one_second ->
  window_admission now ceiling key ws
  = (c <? ceiling,
     <[key := {| window_start := t;
                 count := if c <? ceiling then c + 1 else c |}]> ws).
Proof.
  intros Hw Hnow. unfold window_admission. rewrite Hw. cbn.
  destruct (Z.leb_spec (t + one_second) now); [lia|].
  cbn. destruct (c <? ceiling); reflexivity.
Qed.

Lemma window_admission_new (ceiling : Z) (key : string)
    (ws : gmap string RateWindow) (now : Z) :
  match ws !! key with
  | None => True
  | Some rw => window_start rw + one_second <= now
  end ->
  window_admission now ceiling key ws
  = (0 <? ceiling,
     <[key := {| window_start := now;
                 count := if 0 <? ceiling then 1 else 0 |}]> ws).
Proof.
  intros Hw. unfold window_admission.
  destruct (ws !! key) as [rw|].
  - destruct (Z.leb_spec (window_start rw + one_second) now); [|lia].
    cbn. destruct (0 <? ceiling); reflexivity.
  - cbn. destruct (0 <? ceiling); reflexivity.
Qed.

Lemma _check_rate_limits_bounded (l : CommercialLicense) (e : TierEntry)
    (ceiling : Z) (w : World) :
  catalog (self w) !! tier l = Some e ->
  api_calls_per_second e = PerSecond ceiling ->
  _check_rate_limits l w
  = (Ok (fst (window_admission (clock w (clock_reads w)) ceiling
                               (license_key l) (windows w))),
     with_windows
       (snd (window_admission (clock w (clock_reads w)) ceiling
                              (license_key l) (windows w)))
       (tick (logged "_check_rate_limits" w))).
Proof.
  intros He Hrate. rewrite _check_rate_limits_run, He, Hrate. reflexivity.
Qed.

(** [n] calls while the window started at [t] is open: those that find the
    count below the ceiling pass, the others do not. *)
Lemma burst_open_window (l : CommercialLicense) (e : TierEntry)
    (ceiling t : Z) (n : nat) :
  forall (w : World) (c : Z),
    catalog (self w) !! tier l = Some e ->
    api_calls_per_second e = PerSecond ceiling ->
    windows w !! license_key l = Some {| window_start := t; count := c |} ->
    (forall i, (i < n)%nat ->
               clock w (clock_reads w + i) < t + one_second) ->
    exists w',
      burst l n w
      = (Ok (repeat true (Nat.min n (Z.to_nat (ceiling - c)))
             ++ repeat false (n - Z.to_nat (ceiling - c))), w')
      /\ clock w' = clock w
      /\ clock_reads w' = (clock_reads w + n)%nat
      /\ self w' = self w
      /\ windows w' !! license_key l
         = Some {| window_start := t;
                   count := c + Z.of_nat (Nat.min n (Z.to_nat (ceiling - c))) |}.
Proof.
  induction n as [|n IH]; intros w c He Hrate Hw Hclock.
  - exists w. cbn. rewrite Nat.add_0_r, Z.add_0_r. auto.
  - cbn [burst]. unfold bind at 1.
    rewrite (_check_rate_limits_bounded l e ceiling) by assumption.
    rewrite (window_admission_open ceiling _ _ t c) by
      (try assumption; specialize (Hclock 0%nat);
       rewrite Nat.add_0_r in Hclock; apply Hclock; lia).
    cbn [fst snd].
    set (w1 := with_windows _ _).
    destruct (IH w1 (if c <? ceiling then c + 1 else c))
      as (w' & Hrun & Hclk & Hreads & Hself & Hwin).
    + exact He.
    + exact Hrate.
    + subst w1. cbn [windows with_windows]. apply lookup_insert_eq.
    + intros i Hi. subst w1. cbn [clock clock_reads with_windows tick logged].
      replace (S (clock_reads w) + i)%nat with (clock_reads w + S i)%nat
        by lia.
      apply Hclock. lia.
    + exists w'. unfold bind. rewrite Hrun. unfold ret.
      rewrite Hclk, Hreads, Hself, Hwin. subst w1.
      cbn [clock clock_reads self with_windows tick logged].
      destruct (Z.ltb_spec c ceiling) as [Hlt|Hge].
      * replace (Z.to_nat (ceiling - c))
          with (S (Z.to_nat (ceiling - (c + 1)))) by lia.
        cbn [Nat.min Nat.sub repeat app].
        repeat split; try reflexivity; try lia; try (do 2 f_equal; lia).
      * replace (Z.to_nat (ceiling - c)) with 0%nat by lia.
        rewrite !Nat.min_0_r, !Nat.sub_0_r. cbn [repeat app].
        repeat split; try reflexivity; try lia; try (do 2 f_equal; lia).
Qed.

(** [S n] calls of which the first finds no window, or one that has lasted a
    second, and the others fall within a second of the first. *)
Lemma burst_new_window (l : CommercialLicense) (e : TierEntry)
    (ceiling : nat) (n : nat) (w : World) :
  catalog (self w) !! tier l = Some e ->
  api_calls_per_second e = PerSecond (Z.of_nat ceiling) ->
  match windows w !! license_key l with
  | None => True
  | Some rw => window_start rw + one_second <= clock w (clock_reads w)
  end ->
  (forall i, (i <= n)%nat ->
             clock w (clock_reads w + i)
             < clock w (clock_reads w) + one_second) ->
  exists w',
    burst l (S n) w
    = (Ok (repeat true (Nat.min (S n) ceiling)
           ++ repeat false (S n - ceiling)), w')
    /\ clock w' = clock w
    /\ clock_reads w' = (clock_reads w + S n)%nat
    /\ self w' = self w
    /\ exists c, windows w' !! license_key l
                 = Some {| window_start := clock w (clock_reads w);
                           count := c |}.
Proof.
  intros He Hrate Hw Hclock.
  cbn [burst]. unfold bind at 1.
  rewrite (_check_rate_limits_bounded l e (Z.of_nat ceiling)) by assumption.
  rewrite window_admission_new by exact Hw. cbn [fst snd].
  set (t := clock w (clock_reads w)) in *.
  set (w1 := with_windows _ _).
  destruct (burst_open_window l e (Z.of_nat ceiling) t n w1
              (if 0 <? Z.of_nat ceiling then 1 else 0))
    as (w' & Hrun & Hclk & Hreads & Hself & Hwin).
  - exact He.
  - exact Hrate.
  - subst w1. cbn [windows with_windows]. apply lookup_insert_eq.
  - intros i Hi. subst w1. cbn [clock clock_reads with_windows tick logged].
    replace (S (clock_reads w) + i)%nat with (clock_reads w + S i)%nat by lia.
    apply Hclock. lia.
  - exists w'. unfold bind. rewrite Hrun. unfold ret.
    rewrite Hclk, Hreads, Hself, Hwin. subst w1.
    cbn [clock clock_reads self with_windows tick logged].
    destruct ceiling as [|ceiling].
    + cbn [Z.of_nat Z.ltb Z.compare Z.sub Z.opp Z.add Z.to_nat].
      rewrite !Nat.min_0_r, !Nat.sub_0_r. cbn [repeat app].
      repeat split; try reflexivity; try lia. eexists. reflexivity.
    + replace (0 <? Z.of_nat (S ceiling)) with true
        by (symmetry; apply Z.ltb_lt; lia).
      replace (Z.to_nat (Z.of_nat (S ceiling) - 1)) with ceiling by lia.
      cbn [Nat.min Nat.sub repeat app].
      repeat split; try reflexivity; try lia. eexists. reflexivity.
Qed.

Lemma burst_app (l : CommercialLicense) (n m : nat) (w : World) :
  burst l (n + m) w
  = match burst l n w with
    | (Ok oks, w') =>
        match burst l m w' with
        | (Ok oks', w'') => (Ok (oks ++ oks'), w'')
        | (Raise e, w'') => (Raise e, w'')
        end
    | (Raise e, w') => (Raise e, w')
    end.
Proof.
  revert w. induction n as [|n IH]; intros w.
  - cbn. destruct (burst l m w) as [[oks|e] w']; reflexivity.
  - cbn [Nat.add burst]. unfold bind, ret.
    destruct (_check_rate_limits l w) as [[ok|e] w1]; [|reflexivity].
    rewrite IH.
    destruct (burst l n w1) as [[oks|e] w2]; [|reflexivity].
    destruct (burst l m w2) as [[oks'|e] w3]; reflexivity.
Qed.

Lemma burst_unbounded (l : CommercialLicense) (e : TierEntry) (n : nat) :
  forall w : World,
    catalog (self w) !! tier l = Some e ->
    api_calls_per_second e = Infinity ->
    fst (burst l n w) = Ok (repeat true n).
Proof.
  induction n as [|n IH]; intros w He Hrate; [reflexivity|].
  cbn [burst]. unfold bind at 1.
  rewrite _check_rate_limits_run, He, Hrate.
  unfold bind. specialize (IH (logged "_check_rate_limits" w) He Hrate).
  destruct (burst l n _) as [[oks|err] w']; cbn [fst] in IH |- *.
  - injection IH as ->. reflexivity.
  - discriminate.
Qed.

(** C2. For a license whose tier has a ceiling of [N] calls per second,
    [N + 1] calls within one second, the first of them opening the window,
    pass for the first [N] and fail for the last, and once the second is
    over [N] more calls within one second all pass; a license whose tier has
    no ceiling passes every time. *)
Theorem rate_limit_window (l : CommercialLicense) (e : TierEntry)
    (w : World) :
  catalog (self w) !! tier l = Some e ->
  (api_calls_per_second e = Infinity ->
   forall n, fst (burst l n w) = Ok (repeat true n))
  /\ (forall N : nat,
       api_calls_per_second e = PerSecond (Z.of_nat N) ->
       let r := clock_reads w in
       let t := clock w r in
       let t' := clock w (r + S N) in
       match windows w !! license_key l with
       | None => True
       | Some rw => window_start rw + one_second <= t
       end ->
       (forall i, (i <= N)%nat -> clock w (r + i) < t + one_second) ->
       t + one_second <= t' ->
       (forall i, (i < N)%nat -> clock w (r + S N + i) < t' + one_second) ->
       fst (burst l (S N + N) w)
       = Ok (repeat true N ++ false :: repeat true N)).
Proof.
  intros He. split.
  - intros Hrate n. by apply burst_unbounded with e.
  - intros N Hrate r t t' Hw Hfirst Hgap Hsecond.
    rewrite burst_app.
    destruct (burst_new_window l e N N w He Hrate Hw Hfirst)
      as (w1 & Hrun & Hclk & Hreads & Hself & c & Hwin).
    rewrite Hrun.
    replace (Nat.min (S N) N) with N by lia.
    replace (S N - N)%nat with 1%nat by lia. cbn [repeat].
    destruct N as [|N]; [reflexivity|].
    destruct (burst_new_window l e (S N) N w1) as (w2 & Hrun2 & _).
    + rewrite Hself. exact He.
    + exact Hrate.
    + rewrite Hwin, Hclk, Hreads. cbn [window_start]. exact Hgap.
    + intros i Hi. rewrite Hclk, Hreads. apply Hsecond. lia.
    + rewrite Hrun2. cbn [fst].
      replace (Nat.min (S N) (S N)) with (S N) by lia.
      replace (S N - S N)%nat with 0%nat by lia.
      cbn [repeat]. rewrite app_nil_r, <- app_assoc. reflexivity.
Qed.

Example sample_license_keys :
  license_key_of (license_key_base "Acme" BASIC
                    "fedcba9876543210fedcba9876543210")
  = license_key acme_license
  /\ api_key_of (license_key acme_license) = api_key acme_license
  /\ license_key_of (license_key_base "Initech" UNLIMITED
                       "00112233445566778899aabbccddeeff")
     = license_key initech_license
  /\ api_key_of (license_key initech_license) = api_key initech_license.
Proof. repeat split; vm_compute; reflexivity. Qed.

Lemma rate_limit_window_witness :
  fst (burst initech_license 1000 (serving (clock_with_pause 250)))
  = Ok (repeat true 1000)
  /\ fst (burst techcorp_license 501 (serving (clock_with_pause 250)))
     = Ok (repeat true 250 ++ false :: repeat true 250).
Proof.
  split.
  - apply (proj1 (rate_limit_window initech_license _
                    (serving (clock_with_pause 250))
                    (tier_table_lookup UNLIMITED))).
    reflexivity.
  - apply (proj2 (rate_limit_window techcorp_license _
                    (serving (clock_with_pause 250))
                    (tier_table_lookup ENTERPRISE)) 250%nat).
    + reflexivity.
    + exact I.
    + intros i Hi. cbn [serving clock clock_reads].
      unfold clock_with_pause, one_second.
      repeat match goal with
             | |- context [(?a <? ?b)%nat] => destruct (Nat.ltb_spec a b)
             end; lia.
    + vm_compute. discriminate.
    + intros i Hi. cbn [serving clock clock_reads].
      unfold clock_with_pause, one_second.
      repeat match goal with
             | |- context [(?a <? ?b)%nat] => destruct (Nat.ltb_spec a b)
             end; lia.
Defined.

(** * Further properties *)

(** ** What issuance leaves alone *)

(** X1. Whatever names are bound, [generate_license] never updates
    [self.revenue] nor the tier table; when it raises the registry is as it
    was, and when it returns a license the registry holds that license
    under its license key and is unchanged at every other key. *)
Theorem generate_license_frame (company : string) (t : LicenseTier)
    (w : World) :
  let run := generate_license company t w in
  revenue (self (snd run)) = revenue (self w)
  /\ catalog (self (snd run)) = catalog (self w)
  /\ forall k,
      license_db (self (snd run)) !! k
      = match fst run with
        | Ok l => if decide (license_key l = k) then Some l
                  else license_db (self w) !! k
        | Raise _ => license_db (self w) !! k
        end.
Proof.
  cbv zeta.
  pose proof (generate_license_outcome company t w) as Hout.
  assert (Hkeep : revenue (self (snd (generate_license company t w)))
                  = revenue (self w)
                  /\ catalog (self (snd (generate_license company t w)))
                     = catalog (self w)).
  { unfold generate_license, _generate_license_key, _generate_api_key,
      _calculate_access_level, method, bind, global, uuid4_hex, datetime_now,
      features_of, store, ret.
    destruct (catalog (self w) !! t) eqn:He;
      destruct (existsb (String.eqb "uuid") (globals w)) eqn:E1;
      destruct (existsb (String.eqb "hashlib") (globals w)) eqn:E2;
      destruct (existsb (String.eqb "CommercialLicense") (globals w)) eqn:E3;
      destruct (existsb (String.eqb "LicenseTier") (globals w)) eqn:E4;
      destruct (existsb (String.eqb "datetime") (globals w)) eqn:E5;
      destruct (existsb (String.eqb "timedelta") (globals w)) eqn:E6;
      repeat (cbn [globals logged draw tick with_self self catalog revenue
                   snd];
              rewrite ?He, ?E1, ?E2, ?E3, ?E4, ?E5, ?E6);
      cbn [globals logged draw tick with_self self catalog revenue snd];
      split; reflexivity. }
  destruct Hkeep as [Hrev Hcat]. split; [exact Hrev|]. split; [exact Hcat|].
  intros k.
  destruct (generate_license company t w) as [[l|e] w']; cbn [fst snd] in *.
  - destruct Hout as (-> & _). apply lookup_insert.
  - destruct Hout as (_ & ->). reflexivity.
Qed.

Lemma generate_license_globals (company : string) (t : LicenseTier)
    (w : World) :
  globals (snd (generate_license company t w)) = globals w.
Proof.
  unfold generate_license, _generate_license_key, _generate_api_key,
    _calculate_access_level, method, bind, global, uuid4_hex, datetime_now,
    features_of, store, ret.
  destruct (catalog (self w) !! t) eqn:He;
    destruct (existsb (String.eqb "uuid") (globals w)) eqn:E1;
    destruct (existsb (String.eqb "hashlib") (globals w)) eqn:E2;
    destruct (existsb (String.eqb "CommercialLicense") (globals w)) eqn:E3;
    destruct (existsb (String.eqb "LicenseTier") (globals w)) eqn:E4;
    destruct (existsb (String.eqb "datetime") (globals w)) eqn:E5;
    destruct (existsb (String.eqb "timedelta") (globals w)) eqn:E6;
    repeat (cbn [globals logged draw tick with_self self catalog snd];
            rewrite ?He, ?E1, ?E2, ?E3, ?E4, ?E5, ?E6);
    reflexivity.
Qed.

(** In the module as it is loaded every call raises: on the table lookup
    if the tier is missing, on [timedelta] otherwise. *)
Lemma generate_license_always_raises (company : string) (t : LicenseTier)
    (w : World) :
  globals w = module_globals ->
  exists e, fst (generate_license company t w) = Raise e.
Proof.
  intros HG. destruct (catalog (self w) !! t) as [e|] eqn:He.
  - exists (NameError "timedelta").
    rewrite (generate_license_run company t w e) by assumption. reflexivity.
  - exists KeyError. by apply generate_license_missing_tier.
Qed.

(** X2. In the module as it is loaded, no series of issuance calls changes
    the system object: the registry stays as it was and so does the monthly
    revenue, which for a system just constructed is zero. *)
Theorem issuances_leave_revenue (attempts : list (string * LicenseTier))
    (w : World) :
  globals w = module_globals ->
  self (after_issuances attempts w) = self w
  /\ calculate_monthly_revenue (self (after_issuances attempts w))
     = calculate_monthly_revenue (self w)
  /\ (self w = __init__ ->
      calculate_monthly_revenue (self (after_issuances attempts w)) = 0).
Proof.
  intros HG.
  assert (Hself : self (after_issuances attempts w) = self w).
  { revert w HG. induction attempts as [|[company t] rest IH]; intros w HG.
    - reflexivity.
    - cbn [after_issuances].
      rewrite IH by (rewrite generate_license_globals; exact HG).
      destruct (generate_license_always_raises company t w HG) as [e He].
      pose proof (generate_license_outcome company t w) as Hout.
      destruct (generate_license company t w) as [[l|e'] w'];
        cbn [fst snd] in *; [discriminate|].
      apply Hout. }
  rewrite Hself. split; [reflexivity|]. split; [reflexivity|].
  intros ->. reflexivity.
Qed.

Lemma issuances_leave_revenue_witness :
  let w := boot (fun n => Z.of_nat n) (fun _ => EmptyString) in
  let attempts := [("TechCorp"%string, ENTERPRISE); ("Acme"%string, BASIC)] in
  self (after_issuances attempts w) = self w
  /\ calculate_monthly_revenue (self (after_issuances attempts w))
     = calculate_monthly_revenue (self w)
  /\ (self w = __init__ ->
      calculate_monthly_revenue (self (after_issuances attempts w)) = 0).
Proof.
  apply (issuances_leave_revenue
           [("TechCorp"%string, ENTERPRISE); ("Acme"%string, BASIC)]
           (boot (fun n => Z.of_nat n) (fun _ => EmptyString))).
  reflexivity.
Defined.

(** ** The input of the license key digest *)

Lemma list_ascii_of_string_app (a b : string) :
  list_ascii_of_string (a +:+ b)
  = list_ascii_of_string a ++ list_ascii_of_string b.
Proof. induction a as [|c a IH]; simpl; [reflexivity|]. by f_equal. Qed.

Lemma list_ascii_of_string_inj (a b : string) :
  list_ascii_of_string a = list_ascii_of_string b -> a = b.
Proof.
  intros H. rewrite <- (string_of_list_ascii_of_string a),
    <- (string_of_list_ascii_of_string b). by rewrite H.
Qed.

Lemma length_list_ascii_of_string (a : string) :
  length (list_ascii_of_string a) = String.length a.
Proof. induction a as [|c a IH]; simpl; [reflexivity|]. by f_equal. Qed.

(** A company name followed by a dash and a tier value determines both:
    the four values end in four different letters. *)
Lemma company_tier_inj (c1 c2 : list ascii) (t1 t2 : LicenseTier) :
  c1 ++ list_ascii_of_string ("-" +:+ value t1 +:+ "-")
  = c2 ++ list_ascii_of_string ("-" +:+ value t2 +:+ "-") ->
  c1 = c2 /\ t1 = t2.
Proof.
  intros H. apply (f_equal (@rev ascii)) in H. rewrite !rev_app_distr in H.
  destruct t1, t2;
    first [ apply app_inv_head in H;
            split; [|reflexivity];
            rewrite <- (rev_involutive c1), H; apply rev_involutive
          | vm_compute in H; discriminate H ].
Qed.

(** X3. The string hashed into a license key determines the company name,
    the tier and the nonce, as long as nonces have one length (the 32
    characters of [uuid4().hex]): two issuances that differ in any of the
    three never hash the same input. *)
Theorem license_key_base_inj (c1 c2 n1 n2 : string) (t1 t2 : LicenseTier) :
  String.length n1 = String.length n2 ->
  license_key_base c1 t1 n1 = license_key_base c2 t2 n2 ->
  c1 = c2 /\ t1 = t2 /\ n1 = n2.
Proof.
  intros Hlen Heq. unfold license_key_base in Heq.
  apply (f_equal list_ascii_of_string) in Heq.
  assert (Hshape : forall c t n,
             list_ascii_of_string (c +:+ "-" +:+ value t +:+ "-" +:+ n)
             = (list_ascii_of_string c
                ++ list_ascii_of_string ("-" +:+ value t +:+ "-"))
               ++ list_ascii_of_string n).
  { intros c t n. rewrite !list_ascii_of_string_app, <- !app_assoc.
    reflexivity. }
  rewrite !Hshape in Heq.
  apply app_inj_2 in Heq as [Hhead Hnonce];
    [|by rewrite !length_list_ascii_of_string].
  apply company_tier_inj in Hhead as [Hc Ht].
  repeat split; [by apply list_ascii_of_string_inj | exact Ht
                | by apply list_ascii_of_string_inj].
Qed.

Lemma license_key_base_inj_witness :
  "TechCorp"%string = "TechCorp"%string /\ ENTERPRISE = ENTERPRISE
  /\ "0123456789abcdef0123456789abcdef"%string
     = "0123456789abcdef0123456789abcdef"%string.
Proof.
  apply (license_key_base_inj "TechCorp" "TechCorp"
           "0123456789abcdef0123456789abcdef"
           "0123456789abcdef0123456789abcdef" ENTERPRISE ENTERPRISE);
    reflexivity.
Defined.

(** ** Revenue and the registry *)

Lemma revenue_store_sum (key : string) (l : CommercialLicense) (w : World) :
  calculate_monthly_revenue (self (snd (store key l w)))
  = calculate_monthly_revenue (self w)
    - match license_db (self w) !! key with
      | Some old => monthly_fee old
      | None => 0
      end
    + monthly_fee l.
Proof.
  unfold store, calculate_monthly_revenue.
  cbn [snd self with_self license_db].
  assert (Hins : forall (db : gmap string CommercialLicense) k x,
             db !! k = None ->
             map_fold (fun _ license revenue => revenue + monthly_fee license)
                      0 (<[k := x]> db)
             = map_fold (fun _ license revenue =>
                           revenue + monthly_fee license) 0 db
               + monthly_fee x).
  { intros db k x Hfresh.
    rewrite map_fold_insert_L; [reflexivity| |exact Hfresh]. intros; lia. }
  destruct (license_db (self w) !! key) as [old|] eqn:Hold.
  - rewrite <- (insert_delete_id (license_db (self w)) key old Hold) at 2.
    rewrite <- insert_delete_eq.
    rewrite !Hins by apply lookup_delete_eq. lia.
  - rewrite Hins by exact Hold. lia.
Qed.

Lemma two_licenses_fees_exact : fees_exact two_licenses.
Proof.
  split; [|vm_compute; reflexivity].
  intros k l [[-> ->]|[-> ->]]%two_licenses_lookup; cbn; lia.
Qed.

Lemma calculate_monthly_revenue_counts_all_witness :
  calculate_monthly_revenue two_licenses
  = revenue_snapshot_spec (timedelta 31) two_licenses
    + expired_fees (timedelta 31) two_licenses
  /\ 0 <= expired_fees (timedelta 31) two_licenses
  /\ 0 <= revenue_snapshot_spec (timedelta 31) two_licenses
     <= calculate_monthly_revenue two_licenses.
Proof.
  apply (calculate_monthly_revenue_counts_all (timedelta 31) two_licenses).
  exact two_licenses_fees_exact.
Defined.

(** X4. On registries whose fees are not negative and total less than
    [2^53], before and after, storing a license under a key changes the
    monthly revenue by its fee, less the fee of the record the key held
    before, if any. *)
Theorem revenue_after_store (key : string) (l : CommercialLicense)
    (w : World) :
  fees_exact (self w) ->
  fees_exact (self (snd (store key l w))) ->
  calculate_monthly_revenue (self (snd (store key l w)))
  = calculate_monthly_revenue (self w)
    - match license_db (self w) !! key with
      | Some old => monthly_fee old
      | None => 0
      end
    + monthly_fee l
  /\ 0 <= monthly_fee l
     <= calculate_monthly_revenue (self (snd (store key l w)))
  /\ calculate_monthly_revenue (self (snd (store key l w))) < 2 ^ 53.
Proof.
  intros [Hfees _] [Hfees' Hbound].
  split; [apply revenue_store_sum|]. split; [|exact Hbound].
  assert (Hl : 0 <= monthly_fee l).
  { apply (Hfees' key). unfold store. cbn [snd self with_self license_db].
    apply lookup_insert_eq. }
  split; [exact Hl|].
  rewrite revenue_store_sum.
  destruct (license_db (self w) !! key) as [old|] eqn:Hold.
  - pose proof (revenue_store_sum key old
                  (with_self
                     {| license_db := delete key (license_db (self w));
                        revenue := revenue (self w);
                        catalog := catalog (self w) |} w)) as Hsplit.
    unfold store in Hsplit.
    cbn [snd self with_self license_db revenue catalog] in Hsplit.
    rewrite lookup_delete_eq, insert_delete_id in Hsplit by exact Hold.
    destruct (revenue_sum_splits 0 (delete key (license_db (self w))))
      as [Hsum Hpos].
    destruct Hpos as [Hsnap Hexp].
    { intros k l' Hk. apply (Hfees k).
      apply lookup_delete_Some in Hk as [_ Hk]. exact Hk. }
    unfold calculate_monthly_revenue, revenue_snapshot_spec, expired_fees
      in *.
    cbn [license_db] in *. lia.
  - destruct (revenue_sum_splits 0 (license_db (self w))) as [Hsum Hpos].
    destruct (Hpos Hfees) as [Hsnap Hexp].
    unfold calculate_monthly_revenue, revenue_snapshot_spec, expired_fees
      in *.
    cbn [license_db] in *. lia.
Qed.

Lemma revenue_after_store_witness :
  let w := serving (fun n => Z.of_nat n) in
  let w' := snd (store (license_key initech_license) initech_license w) in
  calculate_monthly_revenue (self w')
  = calculate_monthly_revenue (self w) - 0 + 1000000
  /\ 0 <= 1000000 <= calculate_monthly_revenue (self w')
  /\ calculate_monthly_revenue (self w') < 2 ^ 53.
Proof.
  apply (revenue_after_store (license_key initech_license) initech_license
           (serving (fun n => Z.of_nat n))).
  - exact two_licenses_fees_exact.
  - split; [|vm_compute; reflexivity].
    unfold store. cbn [snd self with_self license_db serving].
    intros k l [[_ <-]|[_ Hk]]%lookup_insert_Some; [cbn; lia|].
    apply two_licenses_lookup in Hk as [[_ ->]|[_ ->]]; cbn; lia.
Defined.

(** ** The price tables *)

(** X5. In the tier table a higher rank means strictly more qubits, a
    strictly higher rate ceiling and a strictly higher price. *)
Theorem tier_table_ordered (t1 t2 : LicenseTier) (e1 e2 : TierEntry) :
  tier_table !! t1 = Some e1 ->
  tier_table !! t2 = Some e2 ->
  (rank t1 < rank t2)%nat ->
  qubits e1 < qubits e2
  /\ rate_below (api_calls_per_second e1) (api_calls_per_second e2)
  /\ price e1 < price e2.
Proof.
  rewrite !tier_table_lookup. intros [= <-] [= <-] Hrank.
  destruct t1, t2; cbn in Hrank; try lia; cbn; repeat split; lia.
Qed.

Lemma tier_table_ordered_witness :
  512 < 2048 /\ rate_below (PerSecond 50) Infinity /\ 50000 < 1000000.
Proof.
  apply (tier_table_ordered PROFESSIONAL UNLIMITED
           {| qubits := 512; api_calls_per_second := PerSecond 50;
              entry_features := professional_features; price := 50000 |}
           {| qubits := 2048; api_calls_per_second := Infinity;
              entry_features := unlimited_features; price := 1000000 |}).
  - reflexivity.
  - reflexivity.
  - cbn. lia.
Defined.

(** X6. The base price of a quote is the price the tier table gives the
    tier, which is what a license of that tier is charged monthly: the
    table of [QuotingSystem] and the tier table agree. The user price of
    the quote is the per-user price of the tier times the number of users,
    whatever its sign. *)
Theorem quote_prices (company : string) (t : LicenseTier)
    (users months : Z) (q : Quote) (e : TierEntry) :
  tier_table !! t = Some e ->
  generate_quote company t users months = inr q ->
  quote_base_price q = price e
  /\ quote_user_price q = per_user_prices t * users
  /\ quote_tier q = value t.
Proof.
  rewrite tier_table_lookup. intros [= <-] Hquote.
  unfold generate_quote in Hquote.
  destruct (float_of_Z _) as [gross|]; [|discriminate].
  destruct (float_of_Z months) as [m|]; [|discriminate].
  destruct (m =? 0)%float; [discriminate|].
  injection Hquote as <-. destruct t; repeat split.
Qed.

Lemma quote_prices_witness :
  250000 = 250000 /\ 30000 = 300 * 100
  /\ "QUANTUM_ENTERPRISE"%string = value ENTERPRISE.
Proof.
  apply (quote_prices "TechCorp" ENTERPRISE 100 12
           {| quote_company_name := "TechCorp";
              quote_tier := "QUANTUM_ENTERPRISE";
              quote_users := 100;
              quote_duration_months := 12;
              quote_base_price := 250000;
              quote_user_price := 30000;
              quote_duration_discount := 20;
              quote_total := 2688000;
              quote_monthly_payment := 224000 |}
           {| qubits := 1024; api_calls_per_second := PerSecond 250;
              entry_features := enterprise_features; price := 250000 |}).
  - reflexivity.
  - vm_compute. reflexivity.
Defined.

(** ** Quotes *)

(** X7. The duration discount never decreases when the duration grows, is
    never negative and never above 0.20, so the factor [1 - discount]
    applied to a quote lies between 0.8 and 1. *)
Theorem duration_discount_monotone (m1 m2 : Z) :
  m1 <= m2 ->
  (_calculate_duration_discount m1 <=? _calculate_duration_discount m2)%float
  = true
  /\ (0 <=? _calculate_duration_discount m1)%float = true
  /\ (_calculate_duration_discount m1 <=? 0.20)%float = true
  /\ (0.8 <=? 1 - _calculate_duration_discount m1)%float = true
  /\ (1 - _calculate_duration_discount m1 <=? 1)%float = true.
Proof.
  intros Hle. unfold _calculate_duration_discount.
  destruct (Z.leb_spec 12 m1), (Z.leb_spec 6 m1),
    (Z.leb_spec 12 m2), (Z.leb_spec 6 m2);
    try lia; repeat split; reflexivity.
Qed.

Lemma duration_discount_monotone_witness :
  (_calculate_duration_discount 6 <=? _calculate_duration_discount 12)%float
  = true
  /\ (0 <=? _calculate_duration_discount 6)%float = true
  /\ (_calculate_duration_discount 6 <=? 0.20)%float = true
  /\ (0.8 <=? 1 - _calculate_duration_discount 6)%float = true
  /\ (1 - _calculate_duration_discount 6 <=? 1)%float = true.
Proof. apply (duration_discount_monotone 6 12). lia. Defined.

(** X8. A quote for a duration of zero months raises [ZeroDivisionError],
    for every company, tier and number of users: the total is computed,
    and the monthly payment divides it by the duration. *)
Theorem generate_quote_zero_months (company : string) (t : LicenseTier)
    (users : Z) :
  generate_quote company t users 0 = inl ZeroDivisionError.
Proof.
  unfold generate_quote. rewrite Z.mul_0_r. reflexivity.
Qed.

(** ** Key spaces *)

(** X10. No API key is a license key: the two derivations give strings
    with different first characters and different lengths, so a license key
    presented as an API key is never the API key of any license. *)
Theorem api_key_never_license_key (key base : string) :
  api_key_of key <> license_key_of base
  /\ String.length (license_key_of base) = 38%nat
  /\ String.length (api_key_of key) = 57%nat.
Proof.
  split; [|split].
  - unfold api_key_of, license_key_of. simpl. discriminate.
  - destruct (license_key_of_format base) as (h & -> & Hlen & _).
    rewrite <- length_list_ascii_of_string, list_ascii_of_string_app,
      length_app, !length_list_ascii_of_string, Hlen. reflexivity.
  - destruct (api_key_of_format key) as (h & -> & Hlen & _).
    rewrite <- length_list_ascii_of_string, list_ascii_of_string_app,
      length_app, !length_list_ascii_of_string, Hlen. reflexivity.
Qed.

(** ** Sales forecast *)

Lemma month_label_inj (a b : Z) : month_label a = month_label b -> a = b.
Proof.
  unfold month_label. intros H.
  apply (f_equal list_ascii_of_string) in H.
  rewrite !list_ascii_of_string_app in H. apply app_inv_head in H.
  apply list_ascii_of_string_inj, (inj pretty) in H. lia.
Qed.

Lemma range_spec (months k : Z) : In k (range months) <-> 0 <= k < months.
Proof.
  unfold range. rewrite in_map_iff. split.
  - intros (i & <- & Hi%in_seq). lia.
  - intros Hk. exists (Z.to_nat k). rewrite in_seq. split; lia.
Qed.

Lemma range_NoDup (months : Z) : NoDup (range months).
Proof.
  unfold range. apply NoDup_ListNoDup.
  apply Finite.Injective_map_NoDup; [|apply List.seq_NoDup].
  intros a b. apply Nat2Z.inj.
Qed.

Section ForecastFacts.

Variable float_pow : float -> Z -> option float.
Variable growth : Z -> float.

Lemma forecast_loop_entries (revenue : float) (months : list Z) :
  forall forecast : gmap string float,
    NoDup months ->
    (forall k, In k months ->
               float_pow (1 + 0.15)%float k = Some (growth k)) ->
    (forall k, In k months -> forecast !! month_label k = None) ->
    exists forecast',
      forecast_loop float_pow revenue months forecast = inr forecast'
      /\ (forall k, In k months ->
            forecast' !! month_label k = Some (revenue * growth k)%float)
      /\ (forall key, (forall k, In k months -> key <> month_label k) ->
            forecast' !! key = forecast !! key)
      /\ size forecast' = (length months + size forecast)%nat.
Proof.
  induction months as [|month rest IH]; intros forecast Hnodup Hpow Hfresh.
  - exists forecast. cbn. repeat split; done.
  - apply NoDup_cons in Hnodup as [Hnotin Hnodup].
    cbn [forecast_loop]. rewrite (Hpow month) by (left; reflexivity).
    destruct (IH (<[month_label month := (revenue * growth month)%float]>
                    forecast)) as (m & Hrun & Hin & Hout & Hsize).
    + exact Hnodup.
    + intros k Hk. apply Hpow. by right.
    + intros k Hk. rewrite lookup_insert_ne.
      * apply Hfresh. by right.
      * intros Heq%month_label_inj. subst k. apply Hnotin.
        by apply list_elem_of_In.
    + exists m. split; [exact Hrun|]. split; [|split].
      * intros k [<-|Hk]; [|by apply Hin].
        rewrite Hout, lookup_insert_eq; [reflexivity|].
        intros k Hk Heq%month_label_inj. subst k. apply Hnotin.
        by apply list_elem_of_In.
      * intros key Hkey. rewrite Hout.
        -- apply lookup_insert_ne. intros Heq. apply (Hkey month).
           ++ by left.
           ++ by symmetry.
        -- intros k Hk. apply Hkey. by right.
      * rewrite Hsize, map_size_insert_None.
        -- cbn [length]. lia.
        -- apply Hfresh. by left.
Qed.

(** X9. Whatever float the monthly revenue is, and as long as the power
    does not overflow, the forecast for [months] months holds one entry per
    month: under ["Month k"], for [k] from 1 to [months], the current
    revenue times the growth factor to the power [k - 1], and nothing under
    any other key; no month overwrites another. For [months] zero or
    negative the forecast is empty. *)
Theorem sales_forecast_entries (current_revenue : float) (months : Z) :
  (forall k, 0 <= k < months ->
             float_pow (1 + 0.15)%float k = Some (growth k)) ->
  exists forecast,
    generate_sales_forecast float_pow current_revenue months = inr forecast
    /\ (forall k, 0 <= k < months ->
          forecast !! month_label k
          = Some (current_revenue * growth k)%float)
    /\ (forall key, (forall k, 0 <= k < months -> key <> month_label k) ->
          forecast !! key = None)
    /\ size forecast = Z.to_nat months
    /\ (months <= 0 -> forecast = ∅).
Proof.
  intros Hpow. unfold generate_sales_forecast.
  destruct (forecast_loop_entries current_revenue (range months) ∅)
    as (forecast & Hrun & Hin & Hout & Hsize).
  - apply range_NoDup.
  - intros k Hk%range_spec. by apply Hpow.
  - intros k _. apply lookup_empty.
  - exists forecast. split; [exact Hrun|]. split; [|split; [|split]].
    + intros k Hk. apply Hin, range_spec, Hk.
    + intros key Hkey. rewrite Hout; [apply lookup_empty|].
      intros k Hk%range_spec. by apply Hkey.
    + rewrite Hsize, map_size_empty. unfold range.
      rewrite length_map, length_seq. lia.
    + intros Hneg. apply map_size_empty_inv.
      rewrite Hsize, map_size_empty. unfold range.
      rewrite length_map, length_seq. lia.
Qed.

End ForecastFacts.

Lemma sales_forecast_entries_witness :
  exists forecast,
    generate_sales_forecast repeated_product 260000%float 3 = inr forecast
    /\ (forall k, 0 <= k < 3 ->
          forecast !! month_label k
          = Some (260000
                  * Nat.iter (Z.to_nat k) (fun a => a * (1 + 0.15)) 1)%float)
    /\ (forall key, (forall k, 0 <= k < 3 -> key <> month_label k) ->
          forecast !! key = None)
    /\ size forecast = Z.to_nat 3
    /\ (3 <= 0 -> forecast = ∅).
Proof.
  apply (sales_forecast_entries repeated_product
           (fun k => Nat.iter (Z.to_nat k)
                              (fun a => a * (1 + 0.15))%float 1%float)
           260000%float 3).
  intros k Hk. reflexivity.
Defined.

(** The forecast over three months from a monthly revenue of 260000.0, the
    revenue of the two sample licenses. *)
Example sales_forecast_three_months :
  generate_sales_forecast repeated_product 260000%float 3
  = inr (<["Month 1"%string := 260000%float]>
        (<["Month 2"%string := 299000%float]>
        (<["Month 3"%string := 343849.99999999994%float]> ∅))).
Proof. vm_compute. reflexivity. Qed.
